(** * The Poincare ball manifold of pymanopt (pymanopt/manifolds/hyperbolic.py)

    A shallow embedding of the class [PoincareBall] and of the numpy
    operations its methods are written with, followed by the properties of
    the exponential and logarithm maps, of Moebius addition, of the distance
    and of the conformal factor.

    The methods are embedded twice.  In [Np] and [PoincareBall] arithmetic
    is exact: a finite float64 is the real number it stands for, so
    rounding, overflow and underflow are outside that model.  What it does
    keep of IEEE arithmetic is the behaviour the methods guard against (or
    fail to): a division by zero, and a hyperbolic inverse taken outside its
    domain, leave the finite numbers.  In [Np64] and [PoincareBall64] the
    methods written with the four operations and the square root alone are
    evaluated in IEEE 754 binary64 itself; the statements that rounding
    decides are about these. *)

From Stdlib Require Import Reals Lra Lia List ZArith Bool.
From Stdlib Require PrimFloat.
From Stdlib Require Import String Ascii Decimal DecimalString.
From Stdlib Require Import DecimalPos DecimalZ.
Import ListNotations.

Local Open Scope R_scope.

(** ** numpy scalars and arrays *)

Module Np.

(** A float64 value.  [Fin r] is a finite float, read as the real [r].
    [NonFinite] is what numpy returns when the result is not a finite
    number: [nan] (0/0, [arctanh] or [arccosh] or [sqrt] outside the domain)
    and the infinities (x/0 with x <> 0, [arctanh] at 1 or -1).  The two are
    not told apart, because the sign of an infinity depends on the sign of a
    zero, which exact arithmetic does not have; a [NonFinite] operand makes
    every result [NonFinite].  (IEEE arithmetic comes back from an infinity
    in two places, tanh(inf) = 1 and x/inf = 0; no infinity arises from
    points inside the ball, which is what the statements are about.) *)
Inductive num : Type :=
| Fin (r : R)
| NonFinite.

Definition lift1 (f : R -> R) (x : num) : num :=
  match x with
  | Fin a => Fin (f a)
  | NonFinite => NonFinite
  end.

Definition lift2 (f : R -> R -> R) (x y : num) : num :=
  match x, y with
  | Fin a, Fin b => Fin (f a b)
  | _, _ => NonFinite
  end.

Definition add : num -> num -> num := lift2 Rplus.
Definition sub : num -> num -> num := lift2 Rminus.
Definition mul : num -> num -> num := lift2 Rmult.
Definition neg : num -> num := lift1 Ropp.

(** [x / y]: numpy gives [nan] for 0/0 and an infinity for x/0 (with a
    warning, not an exception). *)
Definition div (x y : num) : num :=
  match x, y with
  | Fin a, Fin b => if Req_dec_T b 0 then NonFinite else Fin (a / b)
  | _, _ => NonFinite
  end.

(** [x != 0], the mask of [np.divide(..., where=...)]: [nan != 0] and
    [inf != 0] are both true. *)
Definition neq0 (x : num) : bool :=
  match x with
  | Fin a => if Req_dec_T a 0 then false else true
  | NonFinite => true
  end.

(** Inverse hyperbolic functions on the reals, on their domains. *)
Definition Rarctanh (x : R) : R := ln ((1 + x) / (1 - x)) / 2.
Definition Rarccosh (x : R) : R := ln (x + sqrt (x * x - 1)).

(** [np.sqrt]: [nan] below zero. *)
Definition sqrt (x : num) : num :=
  match x with
  | Fin a => if Rlt_dec a 0 then NonFinite else Fin (R_sqrt.sqrt a)
  | NonFinite => NonFinite
  end.

(** [np.tanh] is defined on every finite float. *)
Definition tanh : num -> num := lift1 Rtrigo_def.tanh.

(** [np.arctanh]: finite on the open interval (-1, 1) only. *)
Definition arctanh (x : num) : num :=
  match x with
  | Fin a =>
      if Rlt_dec (-1) a then
        if Rlt_dec a 1 then Fin (Rarctanh a) else NonFinite
      else NonFinite
  | NonFinite => NonFinite
  end.

(** [np.arccosh]: [nan] below 1. *)
Definition arccosh (x : num) : num :=
  match x with
  | Fin a => if Rle_dec 1 a then Fin (Rarccosh a) else NonFinite
  | NonFinite => NonFinite
  end.

(** [np.square] and [** 2]. *)
Definition square (x : num) : num := mul x x.

(** An array of shape (k, n) is the list of its n columns, each column the
    list of its k entries; an array of shape (k,) (the case n = 1 of the
    class) is a single column.  A reduction over [axis=0] leaves one number
    per column: a [vec] of length n (a 0-d scalar when the array is
    1-dimensional, here a [vec] of length 1). *)
Definition vec : Type := list num.
Definition ndarray : Type := list (list num).

Fixpoint zip_with {A B C : Type} (f : A -> B -> C) (l : list A) (m : list B)
  : list C :=
  match l, m with
  | x :: l', y :: m' => f x y :: zip_with f l' m'
  | _, _ => []
  end.

(** Sum of the entries of a 1-d array.  (numpy adds pairwise; in exact
    arithmetic the order does not matter.) *)
Definition sum (v : vec) : num := fold_right add (Fin 0) v.

(** Operations between two per-column vectors. *)
Definition vadd : vec -> vec -> vec := zip_with add.
Definition vsub : vec -> vec -> vec := zip_with sub.
Definition vmul : vec -> vec -> vec := zip_with mul.
Definition vdiv : vec -> vec -> vec := zip_with div.

(** A Python number on the left of a per-column vector: [c + v], [c - v],
    [c * v], [c / v]. *)
Definition sadd (c : R) (v : vec) : vec := map (add (Fin c)) v.
Definition ssub (c : R) (v : vec) : vec := map (sub (Fin c)) v.
Definition smul (c : R) (v : vec) : vec := map (mul (Fin c)) v.
Definition sdiv (c : R) (v : vec) : vec := map (div (Fin c)) v.

(** Elementwise operations between arrays of one shape. *)
Definition aadd : ndarray -> ndarray -> ndarray := zip_with (zip_with add).
Definition asub : ndarray -> ndarray -> ndarray := zip_with (zip_with sub).
Definition amul : ndarray -> ndarray -> ndarray := zip_with (zip_with mul).
Definition aneg : ndarray -> ndarray := map (map neg).

(** Broadcasting of a per-column vector of shape (n,) against an array of
    shape (k, n): column j meets entry j.  [amul_v a v] is [a * v],
    [adiv_v a v] is [a / v], [vmul_a v a] is [v * a] and [adivc a c] is
    [a / c] for a Python number [c]. *)
Definition amul_v (a : ndarray) (v : vec) : ndarray :=
  zip_with (fun col s => map (fun e => mul e s) col) a v.
Definition adiv_v (a : ndarray) (v : vec) : ndarray :=
  zip_with (fun col s => map (fun e => div e s) col) a v.
Definition vmul_a (v : vec) (a : ndarray) : ndarray :=
  zip_with (fun s col => map (fun e => mul s e) col) v a.
Definition adivc (a : ndarray) (c : R) : ndarray :=
  map (map (fun e => div e (Fin c))) a.

(** [np.sum(a, axis=0)]. *)
Definition sum_axis0 (a : ndarray) : vec := map sum a.

(** [np.sum(a)], over every entry. *)
Definition sum_all (a : ndarray) : num := sum (sum_axis0 a).

(** [np.linalg.norm(a, axis=0)]: the square root of the sum of squares of
    each column. *)
Definition linalg_norm_axis0 (a : ndarray) : vec :=
  map sqrt (sum_axis0 (amul a a)).

(** [np.zeros_like(a)]. *)
Definition zeros_like (a : ndarray) : ndarray := map (map (fun _ => Fin 0)) a.

(** [np.divide(x1, x2, out=out, where=mask)]: where the mask holds the
    quotient is written (broadcast down the column), elsewhere [out] keeps
    the value it came with and no division is performed. *)
Fixpoint divide_where (x1 x2 : vec) (out : ndarray) (mask : list bool)
  : ndarray :=
  match x1, x2, out, mask with
  | a :: x1', b :: x2', col :: out', w :: mask' =>
      (if w then map (fun _ => div a b) col else col)
        :: divide_where x1' x2' out' mask'
  | _, _, _, _ => []
  end.

(** [x ** y] for a float [x] and a finite Python float [y]: a real power
    of a positive base; 0 to a positive power is 0, to the power 0 it is 1,
    to a negative power an infinity; a negative base has a power only when
    [y] is a whole number, and [nan] otherwise. *)
Definition power (x : num) (y : R) : num :=
  match x with
  | Fin a =>
      if Rlt_dec 0 a then Fin (Rpower a y)
      else if Req_dec_T a 0 then
        if Rlt_dec 0 y then Fin 0
        else if Req_dec_T y 0 then Fin 1 else NonFinite
      else if Req_dec_T (frac_part y) 0 then Fin (powerRZ a (Int_part y))
      else NonFinite
  | NonFinite => NonFinite
  end.

End Np.

Import Np.

(** ** The class [PoincareBall] *)

Module PoincareBall.

(** Python's [str] of an [int], as the f-strings of the constructor use
    it: decimal digits, with a leading minus sign below zero. *)
Definition str (z : Z) : string := NilZero.string_of_int (Z.to_int z).

(** The exceptions the constructor can end in.  [UnboundLocalError] is what
    Python raises when [name] is read without either branch of the
    [if n == 1 / elif n >= 2] having assigned it. *)
Inductive exn : Type :=
| ValueError (msg : string)
| UnboundLocalError.

(** Modelled from the spec: the base class [Manifold]
    (pymanopt/manifolds/manifold.py is not among the sources), whose
    constructor [super().__init__(name, dimension)] keeps the display name
    and the dimension of the manifold. *)
Record Manifold : Type := mkManifold {
  name : string;
  dim : Z
}.

Definition Manifold_init (name : string) (dimension : Z) : Manifold :=
  mkManifold name dimension.

(** An instance: the two private attributes and the state of the base
    class. *)
Record t : Type := mkPoincareBall {
  _k : Z;
  _n : Z;
  base : Manifold
}.

(** [PoincareBall.__init__(self, k, n)].  An exception raised by
    [__init__] propagates out of the constructor call, so the caller gets
    either the exception or the finished instance. *)
Definition __init__ (k n : Z) : exn + t :=
  if (k <? 1)%Z then
    inl (ValueError ("Need k >= 1. Value given was k = " ++ str k))
  else if (n <? 1)%Z then
    inl (ValueError ("Need n >= 1. Value given was n = " ++ str n))
  else
    let name :=
      if (n =? 1)%Z then Some ("Poincare ball B(" ++ str k ++ ")")%string
      else if (n >=? 2)%Z then
        Some ("Poincare ball B(" ++ str k ++ ")^" ++ str n)%string
      else None in
    let dimension := (k * n)%Z in
    match name with
    | Some name => inr (mkPoincareBall k n (Manifold_init name dimension))
    | None => inl UnboundLocalError
    end.

(** [typical_dist]: [self.dim / 8] (true division). *)
Definition typical_dist (self : t) : R := IZR (dim (base self)) / 8.

(** The remaining methods read nothing of [self]; they are functions of
    their array arguments. *)

Definition conformal_factor (point : ndarray) : vec :=
  sdiv 2 (ssub 1 (sum_axis0 (amul point point))).

Definition inner_product (point tangent_vector_a tangent_vector_b : ndarray)
  : num :=
  let factors := map square (conformal_factor point) in
  sum_all (amul_v (amul tangent_vector_a tangent_vector_b) factors).

Definition projection (point vector : ndarray) : ndarray := vector.

Definition norm (point tangent_vector : ndarray) : num :=
  Np.sqrt (inner_product point tangent_vector tangent_vector).

Definition zero_vector (point : ndarray) : ndarray := zeros_like point.

(** The per-column distances [columns_dist] of [dist], the local variable
    of the method under a name of its own. *)
Definition columns_dist (point_a point_b : ndarray) : vec :=
  let norms2_point_a := sum_axis0 (amul point_a point_a) in
  let norms2_point_b := sum_axis0 (amul point_b point_b) in
  let difference := asub point_a point_b in
  let norms2_difference := sum_axis0 (amul difference difference) in
  map arccosh
    (sadd 1
       (vdiv (smul 2 norms2_difference)
          (vmul (ssub 1 norms2_point_a) (ssub 1 norms2_point_b)))).

Definition dist (point_a point_b : ndarray) : num :=
  let columns_dist := columns_dist point_a point_b in
  Np.sqrt (sum (map square columns_dist)).

Definition euclidean_to_riemannian_gradient
  (point euclidean_gradient : ndarray) : ndarray :=
  let factors := sdiv 1 (map square (conformal_factor point)) in
  amul_v euclidean_gradient factors.

Definition euclidean_to_riemannian_hessian
  (point euclidean_gradient euclidean_hessian tangent_vector : ndarray)
  : ndarray :=
  let lambda_x := conformal_factor point in
  adiv_v
    (aadd
       (asub
          (asub
             (vmul_a (sum_axis0 (amul euclidean_gradient point))
                tangent_vector)
             (vmul_a (sum_axis0 (amul point tangent_vector))
                euclidean_gradient))
          (vmul_a (sum_axis0 (amul euclidean_gradient tangent_vector))
             point))
       (adiv_v euclidean_hessian lambda_x))
    lambda_x.

Definition mobius_addition (point_a point_b : ndarray) : ndarray :=
  let scalar_product := sum_axis0 (amul point_a point_b) in
  let norm_point_a := sum_axis0 (amul point_a point_a) in
  let norm_point_b := sum_axis0 (amul point_b point_b) in
  adiv_v
    (aadd
       (amul_v point_a (vadd (sadd 1 (smul 2 scalar_product)) norm_point_b))
       (amul_v point_b (ssub 1 norm_point_a)))
    (vadd (sadd 1 (smul 2 scalar_product)) (vmul norm_point_a norm_point_b)).

(** The displacement [W] of [exp], the local variable of the method under
    a name of its own so that statements can speak of it. *)
Definition exp_W (point tangent_vector : ndarray) : ndarray :=
  let norm_point := linalg_norm_axis0 tangent_vector in
  (* Handle the case where tangent_vector is 0. *)
  amul tangent_vector
    (divide_where
       (map tanh
          (vdiv norm_point (ssub 1 (sum_axis0 (amul point point)))))
       norm_point
       (zeros_like tangent_vector)
       (map neq0 norm_point)).

Definition exp (point tangent_vector : ndarray) : ndarray :=
  let W := exp_W point tangent_vector in
  mobius_addition point W.

(** [retraction = exp] in the class body: the same function object under a
    second name. *)
Definition retraction : ndarray -> ndarray -> ndarray := exp.

Definition log (point_a point_b : ndarray) : ndarray :=
  let W := mobius_addition (aneg point_a) point_b in
  let norm_W := linalg_norm_axis0 W in
  adiv_v
    (vmul_a
       (vmul (ssub 1 (sum_axis0 (amul point_a point_a))) (map arctanh norm_W))
       W)
    norm_W.

Definition pair_mean (point_a point_b : ndarray) : ndarray :=
  exp point_a (adivc (log point_a point_b) 2).

(** [random_point], as a function of what the random source returns:
    [normal] is the array drawn by [np.random.normal] (of shape (k,) when
    [n == 1] and (k, n) otherwise, one list of columns here) and [uniform]
    the vector drawn by [np.random.uniform(size=n)].  [None] is the
    ZeroDivisionError of the Python division [1.0 / self._k] when
    [self._k] is 0. *)
Definition random_point (self : t) (normal : ndarray) (uniform : vec)
  : option ndarray :=
  let array := normal in
  let norms := linalg_norm_axis0 array in
  if (_k self =? 0)%Z then None
  else
    let radiuses := map (fun u => power u (1 / IZR (_k self))) uniform in
    Some (adiv_v (vmul_a radiuses array) norms).

End PoincareBall.

Import PoincareBall.

(** ** numpy in binary64 *)

Module Np64.

Import PrimFloat.

(** A float64 value as it is: an IEEE 754 binary64 number, with the
    operations rounded to nearest, ties to even, the infinities, the signed
    zeros and nan.  These are the primitive floats, which evaluate on the
    processor's own binary64 arithmetic, as numpy does. *)
Definition vec : Type := list float.
Definition ndarray : Type := list (list float).

(** Sum of the entries of a 1-d array, from the first to the last, which is
    the order of numpy for a column of fewer than eight entries (for the
    two entries of the columns below the order makes no difference). *)
Definition sum (v : vec) : float :=
  match v with
  | [] => 0
  | x :: v' => fold_left PrimFloat.add v' x
  end.

Definition vadd : vec -> vec -> vec := zip_with PrimFloat.add.
Definition vmul : vec -> vec -> vec := zip_with PrimFloat.mul.

Definition sadd (c : float) (v : vec) : vec := map (PrimFloat.add c) v.
Definition ssub (c : float) (v : vec) : vec := map (PrimFloat.sub c) v.
Definition smul (c : float) (v : vec) : vec := map (PrimFloat.mul c) v.
Definition sdiv (c : float) (v : vec) : vec := map (PrimFloat.div c) v.

Definition aadd : ndarray -> ndarray -> ndarray :=
  zip_with (zip_with PrimFloat.add).
Definition amul : ndarray -> ndarray -> ndarray :=
  zip_with (zip_with PrimFloat.mul).

Definition amul_v (a : ndarray) (v : vec) : ndarray :=
  zip_with (fun col s => map (fun e => PrimFloat.mul e s) col) a v.
Definition adiv_v (a : ndarray) (v : vec) : ndarray :=
  zip_with (fun col s => map (fun e => PrimFloat.div e s) col) a v.

(** [np.sum(a, axis=0)]. *)
Definition sum_axis0 (a : ndarray) : vec := map sum a.

(** [np.linalg.norm(a, axis=0)]: [sqrt(add.reduce(a * a, axis=0))]. *)
Definition linalg_norm_axis0 (a : ndarray) : vec :=
  map PrimFloat.sqrt (sum_axis0 (amul a a)).


End Np64.

(** ** [conformal_factor] and [mobius_addition] in binary64 *)

Module PoincareBall64.

Import PrimFloat.
Import Np64.

(** The bodies are those of [PoincareBall.conformal_factor] and
    [PoincareBall.mobius_addition], over the operations of [Np64]; the
    Python integers 1 and 2 are the floats 1.0 and 2.0 once they meet an
    array. *)

Definition conformal_factor (point : ndarray) : vec :=
  sdiv 2 (ssub 1 (sum_axis0 (amul point point))).

Definition mobius_addition (point_a point_b : ndarray) : ndarray :=
  let scalar_product := sum_axis0 (amul point_a point_b) in
  let norm_point_a := sum_axis0 (amul point_a point_a) in
  let norm_point_b := sum_axis0 (amul point_b point_b) in
  adiv_v
    (aadd
       (amul_v point_a (vadd (sadd 1 (smul 2 scalar_product)) norm_point_b))
       (amul_v point_b (ssub 1 norm_point_a)))
    (vadd (sadd 1 (smul 2 scalar_product)) (vmul norm_point_a norm_point_b)).

(** A valid point of the manifold, as a test on floats:
    [np.all(np.linalg.norm(p, axis=0) < 1)]. *)
Definition valid_point (p : ndarray) : bool :=
  forallb (fun r => PrimFloat.ltb r 1) (linalg_norm_axis0 p).

End PoincareBall64.

(** ** Vocabulary of the statements *)

(** Arrays all of whose entries are finite: the image of real columns. *)
Definition fin (a : list R) : list num := map Fin a.
Definition fins (A : list (list R)) : ndarray := map fin A.

Definition is_fin (x : num) : Prop :=
  match x with
  | Fin _ => True
  | NonFinite => False
  end.

Definition finite (a : ndarray) : Prop := Forall (Forall is_fin) a.

(** [x < 1] on floats: false when [x] is not finite. *)
Definition lt1 (x : num) : Prop :=
  match x with
  | Fin r => r < 1
  | NonFinite => False
  end.

(** A valid point of the manifold: every column has Euclidean norm below
    one. *)
Definition valid_point (p : ndarray) : Prop :=
  Forall lt1 (linalg_norm_axis0 p).

(** Two arrays of one shape: as many columns, and columns of equal
    length. *)
Definition same_shape (p q : ndarray) : Prop :=
  Forall2 (fun c d => List.length c = List.length d) p q.

(** Euclidean scalar product and norm of real columns. *)
Definition dot (a b : list R) : R := fold_right Rplus 0 (zip_with Rmult a b).
Definition Rnorm (a : list R) : R := R_sqrt.sqrt (dot a a).

(** The zero column of the length of [a]. *)
Definition zeros (a : list R) : list R := map (fun _ => 0) a.

(** The opposite of a column, and the combination [c1 * a + c2 * b] of two
    columns. *)
Definition opp (a : list R) : list R := map Ropp a.
Definition lin (c1 c2 : R) (a b : list R) : list R :=
  zip_with (fun x y => x * c1 + y * c2) a b.

(** Moebius addition of two real columns. *)
Definition mobiusR (a b : list R) : list R :=
  let s := dot a b in
  let na := dot a a in
  let nb := dot b b in
  zip_with
    (fun x y => (x * (1 + 2 * s + nb) + y * (1 - na)) / (1 + 2 * s + na * nb))
    a b.

(** The exponential and the logarithm map on real columns, by the formulas
    of the methods: the displacement [v * tanh(|v| / (1 - |a|^2)) / |v|]
    added to [a], and [(1 - |a|^2) * arctanh(|w|) * w / |w|] for
    [w = (-a) (+) b]. *)
Definition scale (t : R) (v : list R) : list R := map (fun x => x * t) v.

Definition expR_W (a v : list R) : list R :=
  scale (Rtrigo_def.tanh (Rnorm v / (1 - dot a a)) / Rnorm v) v.

Definition expR (a v : list R) : list R := mobiusR a (expR_W a v).

Definition logR (a b : list R) : list R :=
  let w := mobiusR (opp a) b in
  map (fun x => (1 - dot a a) * Rarctanh (Rnorm w) * x / Rnorm w) w.

(** The conformal factor and the gradient conversion as the specification
    words them: lambda(x) = 2 / (1 - ||x||^2) with the Euclidean norm of the
    column, and the ambient gradient rescaled per column by
    1 / lambda(x)^2. *)
Definition lambdaR (x : list R) : R := 2 / (1 - (Rnorm x) ^ 2).

Definition rescaled_gradient (X G : list (list R)) : list (list R) :=
  zip_with (fun x g => map (fun e => e * (1 / (lambdaR x) ^ 2)) g) X G.

(** The Riemannian inner product on real columns: the Euclidean products of
    the columns, each weighted by the square of the conformal factor. *)
Fixpoint inner_productR (P U V : list (list R)) : R :=
  match P, U, V with
  | a :: P', u :: U', v :: V' =>
      (lambdaR a) ^ 2 * dot u v + inner_productR P' U' V'
  | _, _, _ => 0
  end.

(** The Euclidean product of two real arrays, entry by entry. *)
Fixpoint dots (U V : list (list R)) : R :=
  match U, V with
  | u :: U', v :: V' => dot u v + dots U' V'
  | _, _ => 0
  end.

(** The distance on real columns: the hyperbolic distance between two
    columns, and the Euclidean norm of the per-column distances. *)
Definition columns_distR (a b : list R) : R :=
  Rarccosh
    (1 + 2 * dot (zip_with Rminus a b) (zip_with Rminus a b)
         / ((1 - dot a a) * (1 - dot b b))).

(** The characters of a decimal numeral are digits: none is a closing
    parenthesis. *)
Fixpoint no_paren (s : string) : Prop :=
  match s with
  | EmptyString => True
  | String c s' => c <> ")"%char /\ no_paren s'
  end.

(** Unfold the array operations down to [map] and [zip_with] on columns. *)
Ltac np_unfold :=
  unfold linalg_norm_axis0, sum_all, sum_axis0, zeros_like, adivc, vmul_a,
    adiv_v, amul_v, aneg, amul, asub, aadd, sdiv, smul, ssub, sadd, vdiv,
    vmul, vsub, vadd in *.

(** * Lemmas *)

(** ** Scalars *)

Lemma mul_fin (a b : R) : mul (Fin a) (Fin b) = Fin (a * b).
Proof. reflexivity. Qed.

Lemma div_fin (a b : R) : b <> 0 -> div (Fin a) (Fin b) = Fin (a / b).
Proof.
  intros Hb. unfold div. destruct (Req_dec_T b 0) as [E | _];
    [contradiction | reflexivity].
Qed.

Lemma div_by_zero (x : num) : div x (Fin 0) = NonFinite.
Proof.
  destruct x as [a |]; simpl; [| reflexivity].
  destruct (Req_dec_T 0 0) as [_ | N]; [reflexivity | now elim N].
Qed.

Lemma neq0_fin_nonzero (a : R) : a <> 0 -> neq0 (Fin a) = true.
Proof.
  intros Ha. simpl. destruct (Req_dec_T a 0); [contradiction | reflexivity].
Qed.

Lemma sqrt_fin (a : R) : 0 <= a -> Np.sqrt (Fin a) = Fin (R_sqrt.sqrt a).
Proof.
  intros Ha. simpl. destruct (Rlt_dec a 0); [lra | reflexivity].
Qed.

Lemma arctanh_fin (a : R) :
  -1 < a < 1 -> arctanh (Fin a) = Fin (Rarctanh a).
Proof.
  intros [Hl Hu]. simpl.
  destruct (Rlt_dec (-1) a); [| contradiction].
  destruct (Rlt_dec a 1); [reflexivity | contradiction].
Qed.

Lemma arccosh_fin (a : R) : 1 <= a -> arccosh (Fin a) = Fin (Rarccosh a).
Proof.
  intros Ha. simpl. destruct (Rle_dec 1 a); [reflexivity | contradiction].
Qed.

Lemma Rarccosh_1 : Rarccosh 1 = 0.
Proof.
  unfold Rarccosh.
  replace (1 * 1 - 1) with 0 by ring.
  rewrite sqrt_0, Rplus_0_r. apply ln_1.
Qed.

Lemma Rarctanh_0 : Rarctanh 0 = 0.
Proof.
  unfold Rarctanh.
  replace ((1 + 0) / (1 - 0)) with 1 by field.
  rewrite ln_1. field.
Qed.

(** ** Lists of finite floats *)

Lemma zip_with_length {A B C : Type} (f : A -> B -> C) (l : list A)
  (m : list B) :
  List.length l = List.length m ->
  List.length (zip_with f l m) = List.length l.
Proof.
  revert m. induction l as [| x l IH]; intros [| y m] H; simpl in *;
    try discriminate; auto.
Qed.

Lemma zip_with_fin (f : R -> R -> R) (a b : list R) :
  zip_with (lift2 f) (fin a) (fin b) = fin (zip_with f a b).
Proof.
  revert b. induction a as [| x a IH]; intros [| y b]; simpl; auto.
  now rewrite IH.
Qed.

Lemma sum_fin (a : list R) : sum (fin a) = Fin (fold_right Rplus 0 a).
Proof.
  unfold sum, fin. induction a as [| x a IH]; simpl; [reflexivity |].
  now rewrite IH.
Qed.

Lemma sum_mul_fin (a b : list R) :
  sum (zip_with mul (fin a) (fin b)) = Fin (dot a b).
Proof. unfold mul. now rewrite zip_with_fin, sum_fin. Qed.

Lemma map_mul_fin (s : R) (a : list R) :
  map (fun e => mul e (Fin s)) (fin a) = fin (map (fun x => x * s) a).
Proof. unfold fin. rewrite !map_map. reflexivity. Qed.

Lemma map_mul_fin_l (s : R) (a : list R) :
  map (fun e => mul (Fin s) e) (fin a) = fin (map (fun x => s * x) a).
Proof. unfold fin. rewrite !map_map. reflexivity. Qed.

Lemma map_div_fin (s : R) (a : list R) :
  s <> 0 ->
  map (fun e => div e (Fin s)) (fin a) = fin (map (fun x => x / s) a).
Proof.
  intros Hs. unfold fin. rewrite !map_map. apply map_ext.
  intros x. now apply div_fin.
Qed.

Lemma map_div_zero (c : list num) :
  map (fun e => div e (Fin 0)) c = map (fun _ => NonFinite) c.
Proof. apply map_ext. intros x. apply div_by_zero. Qed.

Lemma fin_inj (a b : list R) : fin a = fin b -> a = b.
Proof.
  revert b. induction a as [| x a IH]; intros [| y b] H; simpl in H;
    try discriminate; auto.
  injection H as -> H. f_equal. now apply IH.
Qed.

Lemma fin_length (a : list R) : List.length (fin a) = List.length a.
Proof. apply length_map. Qed.

Lemma Forall_is_fin (c : list num) :
  Forall is_fin c -> exists a, c = fin a.
Proof.
  induction 1 as [| x c Hx _ [a ->]].
  - now exists [].
  - destruct x as [r |]; [| contradiction]. now exists (r :: a).
Qed.

Lemma finite_fins (p : ndarray) : finite p <-> exists A, p = fins A.
Proof.
  split.
  - induction 1 as [| c p Hc _ [A ->]].
    + now exists [].
    + destruct (Forall_is_fin c Hc) as [a ->]. now exists (a :: A).
  - intros [A ->]. unfold finite, fins.
    apply Forall_forall. intros c Hc.
    apply in_map_iff in Hc. destruct Hc as [a [<- _]].
    apply Forall_forall. intros x Hx.
    apply in_map_iff in Hx. destruct Hx as [r [<- _]]. exact I.
Qed.

(** ** Scalar products *)

Lemma dot_nonneg (a : list R) : 0 <= dot a a.
Proof.
  unfold dot. induction a as [| x a IH]; simpl; [lra |].
  pose proof (Rle_0_sqr x) as Hx. unfold Rsqr in Hx. lra.
Qed.

Lemma dot_comm (a b : list R) : dot a b = dot b a.
Proof.
  unfold dot. revert b. induction a as [| x a IH]; intros [| y b]; simpl; auto.
  rewrite IH. ring.
Qed.

Lemma dot_zeros_r (a : list R) : dot a (zeros a) = 0.
Proof.
  unfold dot, zeros. induction a as [| x a IH]; simpl; [reflexivity |].
  rewrite IH. ring.
Qed.

Lemma dot_zeros (a : list R) : dot (zeros a) (zeros a) = 0.
Proof.
  unfold dot, zeros. induction a as [| x a IH]; simpl; [reflexivity |].
  rewrite IH. ring.
Qed.

Lemma dot_self_zero (a : list R) : dot a a = 0 <-> a = zeros a.
Proof.
  split.
  - induction a as [| x a IH]; intros H; [reflexivity |].
    unfold dot in H. simpl in H. fold (dot a a) in H.
    pose proof (dot_nonneg a) as Ha.
    assert (Hx : x * x = 0) by nra.
    assert (Hd : dot a a = 0) by nra.
    simpl. f_equal; [nra | now apply IH].
  - intros ->. apply dot_zeros.
Qed.

Lemma zeros_like_fin (a : list R) :
  map (fun _ : num => Fin 0) (fin a) = fin (zeros a).
Proof. unfold fin, zeros. now rewrite !map_map. Qed.

Lemma zeros_like_fins (A : list (list R)) :
  zeros_like (fins A) = fins (map zeros A).
Proof.
  unfold zeros_like, fins. rewrite !map_map. apply map_ext.
  intros a. apply zeros_like_fin.
Qed.

(** ** Columns one at a time *)

Lemma zip_with_map_fusion {A B A' B' C D : Type} (g : C -> D)
  (f : A' -> B' -> C) (h1 : A -> A') (h2 : B -> B') (a : list A)
  (b : list B) :
  map g (zip_with f (map h1 a) (map h2 b))
  = zip_with (fun x y => g (f (h1 x) (h2 y))) a b.
Proof.
  revert b. induction a as [| x a IH]; intros [| y b]; simpl; auto.
  now rewrite IH.
Qed.

Lemma zip_with_ext {A B C : Type} (f g : A -> B -> C) (a : list A)
  (b : list B) :
  (forall x y, f x y = g x y) -> zip_with f a b = zip_with g a b.
Proof.
  intros H. revert b. induction a as [| x a IH]; intros [| y b]; simpl; auto.
  now rewrite H, IH.
Qed.

Lemma mobius_addition_cons (a b : list num) (p q : ndarray) :
  mobius_addition (a :: p) (b :: q)
  = mobius_addition [a] [b] ++ mobius_addition p q.
Proof. reflexivity. Qed.

Lemma mobius_addition_nil_l (q : ndarray) : mobius_addition [] q = [].
Proof. reflexivity. Qed.

Lemma mobius_addition_nil_r (p : ndarray) : mobius_addition p [] = [].
Proof. destruct p; reflexivity. Qed.

Lemma mobius_addition_col (a b : list R) :
  1 + 2 * dot a b + dot a a * dot b b <> 0 ->
  mobius_addition [fin a] [fin b] = [fin (mobiusR a b)].
Proof.
  intros HD. unfold mobius_addition.
  np_unfold. simpl. rewrite !sum_mul_fin. simpl.
  rewrite !map_mul_fin. unfold add at 1. rewrite zip_with_fin.
  rewrite map_div_fin by exact HD.
  now rewrite zip_with_map_fusion.
Qed.

Lemma mobiusR_length (a b : list R) :
  List.length a = List.length b -> List.length (mobiusR a b) = List.length a.
Proof. intros H. unfold mobiusR. now apply zip_with_length. Qed.

Lemma mobiusR_zeros_r (a : list R) : mobiusR a (zeros a) = a.
Proof.
  unfold mobiusR. rewrite dot_zeros_r, dot_zeros.
  generalize (dot a a). intros na. unfold zeros.
  induction a as [| x a IH]; simpl; [reflexivity |].
  rewrite IH. f_equal. field.
Qed.

Lemma mobius_addition_zero_col (a : list R) :
  mobius_addition [fin a] [fin (zeros a)] = [fin a].
Proof.
  rewrite mobius_addition_col.
  - now rewrite mobiusR_zeros_r.
  - rewrite dot_zeros_r, dot_zeros. lra.
Qed.

Lemma mobius_addition_zero (A : list (list R)) :
  mobius_addition (fins A) (fins (map zeros A)) = fins A.
Proof.
  induction A as [| a A IH]; [reflexivity |].
  simpl. rewrite mobius_addition_cons, IH, mobius_addition_zero_col.
  reflexivity.
Qed.

Lemma exp_cons (a v : list num) (p t : ndarray) :
  exp (a :: p) (v :: t) = exp [a] [v] ++ exp p t.
Proof. reflexivity. Qed.

Lemma zip_mul_zeros (a : list R) :
  zip_with Rmult (zeros a) (zeros a) = zeros a.
Proof.
  unfold zeros. induction a as [| x a IH]; simpl; [reflexivity |].
  rewrite IH. f_equal. ring.
Qed.

Lemma exp_W_cons (a v : list num) (p t : ndarray) :
  exp_W (a :: p) (v :: t) = exp_W [a] [v] ++ exp_W p t.
Proof. reflexivity. Qed.

Lemma exp_W_zero_col (a : list R) :
  exp_W [fin a] [fin (zeros a)] = [fin (zeros a)].
Proof.
  unfold exp_W.
  assert (Hn : linalg_norm_axis0 [fin (zeros a)] = [Fin 0]).
  { np_unfold. simpl. rewrite sum_mul_fin, dot_zeros.
    rewrite sqrt_fin by lra. now rewrite sqrt_0. }
  rewrite Hn. np_unfold. simpl.
  destruct (Req_dec_T 0 0) as [_ | N]; [| now elim N].
  rewrite zeros_like_fin.
  replace (zeros (zeros a)) with (zeros a)
    by (unfold zeros; now rewrite map_map).
  unfold mul. rewrite zip_with_fin. now rewrite zip_mul_zeros.
Qed.

Lemma exp_W_zero (A : list (list R)) :
  exp_W (fins A) (fins (map zeros A)) = fins (map zeros A).
Proof.
  induction A as [| a A IH]; [reflexivity |].
  simpl. rewrite exp_W_cons, IH, exp_W_zero_col. reflexivity.
Qed.

Lemma exp_zero (A : list (list R)) : exp (fins A) (fins (map zeros A)) = fins A.
Proof. unfold exp. rewrite exp_W_zero. apply mobius_addition_zero. Qed.

(** ** Valid points *)

Lemma norm_col_fin (a : list R) :
  linalg_norm_axis0 [fin a] = [Fin (Rnorm a)].
Proof.
  np_unfold. simpl. rewrite sum_mul_fin.
  rewrite sqrt_fin by apply dot_nonneg. reflexivity.
Qed.

Lemma norm_cons (c : list num) (p : ndarray) :
  linalg_norm_axis0 (c :: p) = linalg_norm_axis0 [c] ++ linalg_norm_axis0 p.
Proof. reflexivity. Qed.

Lemma sum_is_fin (c : list num) : is_fin (sum c) -> Forall is_fin c.
Proof.
  unfold sum. induction c as [| x c IH]; simpl; intros H; [constructor |].
  destruct x as [r |]; [| contradiction].
  destruct (fold_right add (Fin 0) c) as [s |] eqn:E; [| contradiction].
  constructor; [exact I | apply IH; exact I].
Qed.

Lemma zip_mul_self_is_fin (c : list num) :
  Forall is_fin (zip_with mul c c) -> Forall is_fin c.
Proof.
  induction c as [| x c IH]; simpl; intros H; [constructor |].
  inversion H as [| y l Hx Hc]; subst.
  constructor; [| now apply IH].
  destruct x; [exact I | contradiction].
Qed.

Lemma lt1_norm_col (c : list num) :
  Forall lt1 (linalg_norm_axis0 [c]) ->
  exists a, c = fin a /\ dot a a < 1.
Proof.
  intros H. inversion H as [| x l Hx _]; subst. clear H.
  np_unfold. simpl in Hx.
  destruct (sum (zip_with mul c c)) as [s |] eqn:E; [| contradiction].
  assert (Hc : Forall is_fin c).
  { apply zip_mul_self_is_fin, sum_is_fin. now rewrite E. }
  destruct (Forall_is_fin c Hc) as [a ->]. exists a. split; [reflexivity |].
  rewrite sum_mul_fin in E. injection E as <-.
  simpl in Hx. destruct (Rlt_dec (dot a a) 0) as [Hneg | _]; [contradiction |].
  simpl in Hx.
  destruct (Rlt_dec (dot a a) 1) as [Hlt | Hge]; [exact Hlt |].
  exfalso. apply Rnot_lt_le in Hge.
  apply sqrt_le_1_alt in Hge. rewrite sqrt_1 in Hge. lra.
Qed.

Lemma Rnorm_lt1 (a : list R) : Rnorm a < 1 <-> dot a a < 1.
Proof.
  unfold Rnorm. pose proof (dot_nonneg a) as H0. split; intros H.
  - destruct (Rlt_dec (dot a a) 1) as [Hlt | Hge]; [exact Hlt |].
    exfalso. apply Rnot_lt_le in Hge.
    apply sqrt_le_1_alt in Hge. rewrite sqrt_1 in Hge. lra.
  - rewrite <- sqrt_1. apply sqrt_lt_1_alt. lra.
Qed.

Lemma valid_fins_iff (A : list (list R)) :
  valid_point (fins A) <-> Forall (fun a => dot a a < 1) A.
Proof.
  unfold valid_point. induction A as [| a A IH]; simpl.
  - split; constructor.
  - rewrite norm_cons, norm_col_fin. simpl. split; intros H.
    + inversion H as [| x l Hx Hl]; subst. constructor.
      * now apply Rnorm_lt1.
      * now apply IH.
    + inversion H as [| x l Hx Hl]; subst. constructor.
      * simpl. now apply Rnorm_lt1.
      * now apply IH.
Qed.

Lemma valid_point_fins (p : ndarray) :
  valid_point p <-> exists A, p = fins A /\ Forall (fun a => dot a a < 1) A.
Proof.
  split.
  - unfold valid_point. induction p as [| c p IH]; intros H.
    + exists []. split; [reflexivity | constructor].
    + rewrite norm_cons in H. apply Forall_app in H. destruct H as [Hc Hp].
      destruct (lt1_norm_col c Hc) as [a [-> Ha]].
      destruct (IH Hp) as [A [-> HA]].
      exists (a :: A). split; [reflexivity | now constructor].
  - intros [A [-> HA]]. now apply valid_fins_iff.
Qed.

Lemma valid_half : valid_point [[Fin (1 / 2); Fin 0]].
Proof.
  apply (valid_fins_iff [[1 / 2; 0]]). repeat constructor.
  unfold dot. simpl. lra.
Qed.

Lemma valid_origin : valid_point [[Fin 0; Fin 0]].
Proof.
  apply (valid_fins_iff [[0; 0]]). repeat constructor.
  unfold dot. simpl. lra.
Qed.

(** ** The constructor *)

Lemma str_reads_back (z : Z) :
  option_map Z.of_int (NilZero.int_of_string (str z)) = Some z.
Proof.
  unfold str. rewrite NilZero.isi.
  - simpl. now rewrite DecimalZ.of_to.
  - destruct z; simpl; try discriminate.
    intros [= H]. now apply (DecimalPos.Unsigned.to_uint_nonnil p).
  - destruct z; simpl; try discriminate.
    intros [= H]. now apply (DecimalPos.Unsigned.to_uint_nonnil p).
Qed.

Lemma str_inj (a b : Z) : str a = str b -> a = b.
Proof.
  intros H. pose proof (str_reads_back a) as Ha.
  rewrite H, str_reads_back in Ha. now injection Ha.
Qed.

(** ** Conformal factor and gradient conversion, column by column *)


Lemma Rnorm_sqr (a : list R) : (Rnorm a) ^ 2 = dot a a.
Proof.
  unfold Rnorm. simpl. rewrite Rmult_1_r.
  apply sqrt_sqrt, dot_nonneg.
Qed.

Lemma conformal_factor_col (a : list R) :
  dot a a < 1 -> conformal_factor [fin a] = [Fin (lambdaR a)].
Proof.
  intros Ha. unfold conformal_factor. np_unfold. simpl.
  rewrite sum_mul_fin. simpl.
  destruct (Req_dec_T (1 - dot a a) 0) as [E | _]; [lra |].
  unfold lambdaR. now rewrite Rnorm_sqr.
Qed.

Lemma lambdaR_ge_2 (a : list R) : dot a a < 1 -> 2 <= lambdaR a.
Proof.
  intros Ha. unfold lambdaR. rewrite Rnorm_sqr.
  pose proof (dot_nonneg a) as H0.
  apply Rmult_le_reg_r with (1 - dot a a); [lra |].
  unfold Rdiv. rewrite Rmult_assoc, Rinv_l by lra. lra.
Qed.


Lemma gradient_cons (c g : list num) (p q : ndarray) :
  euclidean_to_riemannian_gradient (c :: p) (g :: q)
  = euclidean_to_riemannian_gradient [c] [g]
    ++ euclidean_to_riemannian_gradient p q.
Proof. reflexivity. Qed.

Lemma lambdaR_pos (a : list R) : dot a a < 1 -> 0 < lambdaR a.
Proof. intros Ha. pose proof (lambdaR_ge_2 a Ha). lra. Qed.

Lemma gradient_col (a g : list R) :
  dot a a < 1 ->
  euclidean_to_riemannian_gradient [fin a] [fin g]
  = [fin (map (fun e => e * (1 / (lambdaR a) ^ 2)) g)].
Proof.
  intros Ha. unfold euclidean_to_riemannian_gradient.
  rewrite conformal_factor_col by exact Ha.
  pose proof (lambdaR_pos a Ha) as Hl.
  np_unfold. simpl.
  destruct (Req_dec_T (lambdaR a * lambdaR a) 0) as [E | _]; [nra |].
  rewrite map_mul_fin. repeat f_equal.
  simpl. now rewrite Rmult_1_r.
Qed.

(** ** Distance *)

Lemma mul_comm (x y : num) : mul x y = mul y x.
Proof. destruct x, y; simpl; try reflexivity. f_equal. ring. Qed.

Lemma sqr_sub_sym (x y : num) :
  mul (sub x y) (sub x y) = mul (sub y x) (sub y x).
Proof. destruct x, y; simpl; try reflexivity. f_equal. ring. Qed.

Lemma zip_with_comm {A B : Type} (f : A -> A -> B) (l m : list A) :
  (forall x y, f x y = f y x) -> zip_with f l m = zip_with f m l.
Proof.
  intros H. revert m. induction l as [| x l IH]; intros [| y m]; simpl; auto.
  now rewrite H, IH.
Qed.

Lemma sqr_diff_col_sym (c d : list num) :
  zip_with mul (zip_with sub c d) (zip_with sub c d)
  = zip_with mul (zip_with sub d c) (zip_with sub d c).
Proof.
  revert d. induction c as [| x c IH]; intros [| y d]; simpl; auto.
  now rewrite IH, sqr_sub_sym.
Qed.

Lemma sqr_diff_sym (p q : ndarray) :
  amul (asub p q) (asub p q) = amul (asub q p) (asub q p).
Proof.
  np_unfold. revert q.
  induction p as [| c p IH]; intros [| d q]; simpl; auto.
  now rewrite IH, sqr_diff_col_sym.
Qed.

Lemma columns_dist_sym (p q : ndarray) : columns_dist p q = columns_dist q p.
Proof.
  unfold columns_dist. rewrite (sqr_diff_sym p q).
  f_equal. f_equal. f_equal. unfold vmul. apply zip_with_comm, mul_comm.
Qed.

Lemma dist_sym (p q : ndarray) : dist p q = dist q p.
Proof. unfold dist. now rewrite columns_dist_sym. Qed.

Lemma columns_dist_cons (c d : list num) (p q : ndarray) :
  columns_dist (c :: p) (d :: q) = columns_dist [c] [d] ++ columns_dist p q.
Proof. reflexivity. Qed.

Lemma dot_sub_self (a : list R) :
  dot (zip_with Rminus a a) (zip_with Rminus a a) = 0.
Proof.
  unfold dot. induction a as [| x a IH]; simpl; [reflexivity |].
  rewrite IH. ring.
Qed.

Lemma columns_dist_self_col (a : list R) :
  dot a a < 1 -> columns_dist [fin a] [fin a] = [Fin 0].
Proof.
  intros Ha. unfold columns_dist. np_unfold. simpl.
  unfold sub at 1 2. rewrite zip_with_fin, !sum_mul_fin, dot_sub_self.
  simpl.
  destruct (Req_dec_T ((1 - dot a a) * (1 - dot a a)) 0) as [E | _]; [nra |].
  replace (1 + 2 * 0 / ((1 - dot a a) * (1 - dot a a))) with 1
    by (field; lra).
  rewrite arccosh_fin by lra. now rewrite Rarccosh_1.
Qed.

Lemma columns_dist_self (A : list (list R)) :
  Forall (fun a => dot a a < 1) A ->
  columns_dist (fins A) (fins A) = map (fun _ => Fin 0) A.
Proof.
  induction 1 as [| a A Ha _ IH]; [reflexivity |].
  simpl. rewrite columns_dist_cons, columns_dist_self_col by exact Ha.
  now rewrite IH.
Qed.

Lemma sum_square_zeros {A : Type} (l : list A) :
  sum (map square (map (fun _ => Fin 0) l)) = Fin 0.
Proof.
  unfold sum. induction l as [| x l IH]; simpl; [reflexivity |].
  rewrite IH. simpl. f_equal. ring.
Qed.

Lemma dist_self (A : list (list R)) :
  Forall (fun a => dot a a < 1) A -> dist (fins A) (fins A) = Fin 0.
Proof.
  intros HA. unfold dist. rewrite columns_dist_self by exact HA.
  rewrite sum_square_zeros, sqrt_fin by lra. now rewrite sqrt_0.
Qed.

(** ** Combinations of two columns and their scalar products *)

Lemma lin_length (c1 c2 : R) (a b : list R) :
  List.length a = List.length b ->
  List.length (lin c1 c2 a b) = List.length a.
Proof. intros H. unfold lin. now apply zip_with_length. Qed.

Lemma lin_1_0 (a b : list R) :
  List.length a = List.length b -> lin 1 0 a b = a.
Proof.
  unfold lin. revert b.
  induction a as [| x a IH]; intros [| y b] H; simpl in *;
    try discriminate; auto.
  rewrite IH by lia. f_equal. ring.
Qed.

Lemma lin_0_1 (a b : list R) :
  List.length a = List.length b -> lin 0 1 a b = b.
Proof.
  unfold lin. revert b.
  induction a as [| x a IH]; intros [| y b] H; simpl in *;
    try discriminate; auto.
  rewrite IH by lia. f_equal. ring.
Qed.

Lemma lin_0_0 (a b : list R) :
  List.length a = List.length b -> lin 0 0 a b = zeros a.
Proof.
  unfold lin, zeros. revert b.
  induction a as [| x a IH]; intros [| y b] H; simpl in *;
    try discriminate; auto.
  rewrite IH by lia. f_equal. ring.
Qed.

Lemma lin_m1_0 (a b : list R) :
  List.length a = List.length b -> lin (-1) 0 a b = opp a.
Proof.
  unfold lin, opp. revert b.
  induction a as [| x a IH]; intros [| y b] H; simpl in *;
    try discriminate; auto.
  rewrite IH by lia. f_equal. ring.
Qed.

Lemma lin_ext (c1 c2 d1 d2 : R) (a b : list R) :
  c1 = d1 -> c2 = d2 -> lin c1 c2 a b = lin d1 d2 a b.
Proof. now intros -> ->. Qed.

(** A combination of two combinations of [a] and [b] is one again. *)
Lemma lin_lin (c1 c2 p1 p2 q1 q2 : R) (a b : list R) :
  lin c1 c2 (lin p1 p2 a b) (lin q1 q2 a b)
  = lin (p1 * c1 + q1 * c2) (p2 * c1 + q2 * c2) a b.
Proof.
  unfold lin. revert b.
  induction a as [| x a IH]; intros [| y b]; simpl; auto.
  rewrite IH. f_equal. ring.
Qed.

Lemma dot_lin (c1 c2 d1 d2 : R) (a b : list R) :
  List.length a = List.length b ->
  dot (lin c1 c2 a b) (lin d1 d2 a b)
  = c1 * d1 * dot a a + (c1 * d2 + c2 * d1) * dot a b + c2 * d2 * dot b b.
Proof.
  unfold dot, lin. revert b.
  induction a as [| x a IH]; intros [| y b] H; simpl in *;
    try discriminate; [ring |].
  rewrite IH by lia. ring.
Qed.

(** Cauchy-Schwarz, from the sign of |a + t b|^2. *)
Lemma cauchy_schwarz (a b : list R) :
  List.length a = List.length b ->
  dot a b * dot a b <= dot a a * dot b b.
Proof.
  intros Hlen.
  assert (Hq : forall t, 0 <= dot a a + 2 * t * dot a b + t * t * dot b b).
  { intros t. pose proof (dot_nonneg (lin 1 t a b)) as H.
    rewrite dot_lin in H by exact Hlen. lra. }
  pose proof (dot_nonneg a) as HA. pose proof (dot_nonneg b) as HB.
  destruct (Req_dec_T (dot b b) 0) as [E | NE].
  - rewrite E in *. rewrite Rmult_0_r.
    destruct (Req_dec_T (dot a b) 0) as [Es | NEs]; [rewrite Es; lra |].
    exfalso. specialize (Hq (- (dot a a + 1) / (2 * dot a b))).
    replace (dot a a + 2 * (- (dot a a + 1) / (2 * dot a b)) * dot a b
             + - (dot a a + 1) / (2 * dot a b)
               * (- (dot a a + 1) / (2 * dot a b)) * 0)
      with (-1) in Hq by (field; exact NEs).
    lra.
  - specialize (Hq (- dot a b / dot b b)).
    replace (dot a a + 2 * (- dot a b / dot b b) * dot a b
             + - dot a b / dot b b * (- dot a b / dot b b) * dot b b)
      with ((dot a a * dot b b - dot a b * dot a b) / dot b b) in Hq
      by (field; exact NE).
    assert (Hpos : 0 < dot b b) by lra.
    apply Rmult_le_compat_r with (r := dot b b) in Hq; [| lra].
    unfold Rdiv in Hq. rewrite Rmult_assoc, Rinv_l in Hq by exact NE.
    lra.
Qed.

(** ** Moebius addition on real columns *)

(** The denominator of [a (+) b] is positive inside the ball. *)
Lemma mobius_denominator_pos (a b : list R) :
  List.length a = List.length b ->
  dot a a < 1 -> dot b b < 1 ->
  0 < 1 + 2 * dot a b + dot a a * dot b b.
Proof.
  intros Hlen Ha Hb.
  pose proof (cauchy_schwarz a b Hlen) as Hcs.
  pose proof (dot_nonneg a) as HA. pose proof (dot_nonneg b) as HB.
  destruct (Rle_lt_dec 0 (dot a b)) as [Hs | Hs]; [nra |].
  assert (Hab : dot a a * dot b b < 1) by nra.
  assert (H4 : 4 * (dot a b * dot a b)
               < (1 + dot a a * dot b b) * (1 + dot a a * dot b b)) by nra.
  nra.
Qed.

Lemma mobiusR_lin (a b : list R) :
  mobiusR a b
  = lin ((1 + 2 * dot a b + dot b b) / (1 + 2 * dot a b + dot a a * dot b b))
        ((1 - dot a a) / (1 + 2 * dot a b + dot a a * dot b b)) a b.
Proof.
  unfold mobiusR, lin. apply zip_with_ext. intros x y.
  unfold Rdiv. ring.
Qed.

(** |a (+) b|^2 = (|a|^2 + 2 a.b + |b|^2) / (1 + 2 a.b + |a|^2 |b|^2). *)
Lemma dot_mobiusR (a b : list R) :
  List.length a = List.length b ->
  1 + 2 * dot a b + dot a a * dot b b <> 0 ->
  dot (mobiusR a b) (mobiusR a b)
  = (dot a a + 2 * dot a b + dot b b)
    / (1 + 2 * dot a b + dot a a * dot b b).
Proof.
  intros Hlen HD. rewrite mobiusR_lin, dot_lin by exact Hlen.
  field. exact HD.
Qed.

Lemma mobiusR_in_ball (a b : list R) :
  List.length a = List.length b ->
  dot a a < 1 -> dot b b < 1 ->
  dot (mobiusR a b) (mobiusR a b) < 1.
Proof.
  intros Hlen Ha Hb.
  pose proof (mobius_denominator_pos a b Hlen Ha Hb) as HD.
  rewrite dot_mobiusR by (exact Hlen || lra).
  apply Rmult_lt_reg_r with (1 + 2 * dot a b + dot a a * dot b b);
    [exact HD |].
  unfold Rdiv. rewrite Rmult_assoc, Rinv_l by lra. nra.
Qed.

Lemma same_shape_fins (A B : list (list R)) :
  same_shape (fins A) (fins B)
  <-> Forall2 (fun a b => List.length a = List.length b) A B.
Proof.
  unfold same_shape. revert B.
  induction A as [| a A IH]; intros [| b B]; simpl; split; intros H;
    try constructor; try solve [inversion H].
  - inversion H; subst. now rewrite !fin_length in *.
  - inversion H; subst. now apply IH.
  - inversion H; subst. now rewrite !fin_length.
  - inversion H; subst. now apply IH.
Qed.

Lemma mobius_addition_fins (A B : list (list R)) :
  Forall2 (fun a b => List.length a = List.length b) A B ->
  Forall (fun a => dot a a < 1) A ->
  Forall (fun b => dot b b < 1) B ->
  mobius_addition (fins A) (fins B) = fins (zip_with mobiusR A B).
Proof.
  induction 1 as [| a b A B Hlen _ IH]; intros HA HB; [reflexivity |].
  inversion HA as [| ? ? Ha HA']; subst.
  inversion HB as [| ? ? Hb HB']; subst.
  simpl. rewrite mobius_addition_cons, mobius_addition_col.
  - now rewrite IH.
  - pose proof (mobius_denominator_pos a b Hlen Ha Hb). lra.
Qed.

(** ** The logarithm of a point at itself *)

Lemma log_cons (a b : list num) (p q : ndarray) :
  log (a :: p) (b :: q) = log [a] [b] ++ log p q.
Proof. reflexivity. Qed.

Lemma aneg_fin (a : list R) : aneg [fin a] = [fin (opp a)].
Proof. unfold aneg, fin, opp. simpl. now rewrite !map_map. Qed.

Lemma dot_opp_l (a b : list R) : dot (opp a) b = - dot a b.
Proof.
  unfold dot, opp. revert b.
  induction a as [| x a IH]; intros [| y b]; simpl; try ring.
  rewrite IH. ring.
Qed.

Lemma dot_opp_opp (a : list R) : dot (opp a) (opp a) = dot a a.
Proof.
  unfold dot, opp. induction a as [| x a IH]; simpl; [reflexivity |].
  rewrite IH. ring.
Qed.

Lemma opp_length (a : list R) : List.length (opp a) = List.length a.
Proof. apply length_map. Qed.

(** (-a) (+) a = 0 *)
Lemma mobiusR_opp_self (a : list R) :
  dot a a <> 1 -> mobiusR (opp a) a = zeros a.
Proof.
  intros Ha. unfold mobiusR. rewrite dot_opp_l, dot_opp_opp.
  revert Ha. generalize (dot a a). intros A HA. unfold opp, zeros.
  induction a as [| x a IH]; simpl; [reflexivity |].
  rewrite IH. f_equal. field.
  intros E. apply HA. nra.
Qed.

Lemma norm_zeros_col (a : list R) :
  linalg_norm_axis0 [fin (zeros a)] = [Fin 0].
Proof.
  rewrite norm_col_fin. unfold Rnorm. now rewrite dot_zeros, sqrt_0.
Qed.

(** The Moebius difference of a point with itself is zero, its norm is
    zero, and the last operation of [log] divides by that norm. *)
Lemma log_self_col (a : list R) :
  dot a a < 1 -> log [fin a] [fin a] = [map (fun _ => NonFinite) a].
Proof.
  intros Ha. unfold log.
  rewrite aneg_fin, mobius_addition_col.
  - rewrite mobiusR_opp_self by lra. rewrite norm_zeros_col.
    np_unfold. cbn [zip_with map]. rewrite map_div_zero.
    unfold fin, zeros. now rewrite !map_map.
  - rewrite dot_opp_l, dot_opp_opp. nra.
Qed.

Lemma log_self (A : list (list R)) :
  Forall (fun a => dot a a < 1) A ->
  log (fins A) (fins A) = map (map (fun _ => NonFinite)) A.
Proof.
  induction 1 as [| a A Ha _ IH]; [reflexivity |].
  simpl. rewrite log_cons, log_self_col by exact Ha.
  now rewrite IH.
Qed.

(** ** tanh and its inverse on the reals *)

Lemma tanh_exp2 (x : R) :
  Rtrigo_def.tanh x
  = (Rtrigo_def.exp (2 * x) - 1) / (Rtrigo_def.exp (2 * x) + 1).
Proof.
  unfold Rtrigo_def.tanh, sinh, cosh.
  replace (2 * x) with (x + x) by ring. rewrite exp_plus, exp_Ropp.
  pose proof (exp_pos x) as Hx.
  field. split; nra.
Qed.

Lemma tanh_bounds (x : R) : -1 < Rtrigo_def.tanh x < 1.
Proof.
  rewrite tanh_exp2. pose proof (exp_pos (2 * x)) as HE.
  split.
  - apply Rmult_lt_reg_r with (Rtrigo_def.exp (2 * x) + 1); [lra |].
    unfold Rdiv. rewrite Rmult_assoc, Rinv_l by lra. lra.
  - apply Rmult_lt_reg_r with (Rtrigo_def.exp (2 * x) + 1); [lra |].
    unfold Rdiv. rewrite Rmult_assoc, Rinv_l by lra. lra.
Qed.

Lemma tanh_pos (x : R) : 0 < x -> 0 < Rtrigo_def.tanh x.
Proof.
  intros Hx. rewrite tanh_exp2.
  assert (HE : 1 < Rtrigo_def.exp (2 * x)).
  { rewrite <- exp_0. apply exp_increasing. lra. }
  apply Rdiv_lt_0_compat; lra.
Qed.

Lemma Rarctanh_tanh (x : R) : Rarctanh (Rtrigo_def.tanh x) = x.
Proof.
  unfold Rarctanh. rewrite tanh_exp2.
  pose proof (exp_pos (2 * x)) as HE.
  replace ((1 + (Rtrigo_def.exp (2 * x) - 1) / (Rtrigo_def.exp (2 * x) + 1))
           / (1 - (Rtrigo_def.exp (2 * x) - 1) / (Rtrigo_def.exp (2 * x) + 1)))
    with (Rtrigo_def.exp (2 * x)) by (field; split; lra).
  rewrite ln_exp. field.
Qed.

Lemma tanh_Rarctanh (m : R) :
  -1 < m < 1 -> Rtrigo_def.tanh (Rarctanh m) = m.
Proof.
  intros [Hl Hu]. rewrite tanh_exp2. unfold Rarctanh.
  replace (2 * (ln ((1 + m) / (1 - m)) / 2)) with (ln ((1 + m) / (1 - m)))
    by field.
  rewrite exp_ln by (apply Rdiv_lt_0_compat; lra).
  field. split; lra.
Qed.

Lemma Rarctanh_pos (m : R) : 0 < m < 1 -> 0 < Rarctanh m.
Proof.
  intros [Hl Hu]. unfold Rarctanh.
  apply Rdiv_lt_0_compat; [| lra].
  rewrite <- ln_1. apply ln_increasing; [lra |].
  apply Rmult_lt_reg_r with (1 - m); [lra |].
  unfold Rdiv. rewrite Rmult_assoc, Rinv_l by lra. lra.
Qed.

(** ** The exponential and the logarithm map, column by column *)

Lemma scale_length (t : R) (v : list R) :
  List.length (scale t v) = List.length v.
Proof. apply length_map. Qed.

Lemma dot_scale_scale (t : R) (v : list R) :
  dot (scale t v) (scale t v) = t * t * dot v v.
Proof.
  unfold dot, scale. induction v as [| y v IH]; simpl; [ring |].
  rewrite IH. ring.
Qed.

Lemma scale_scale (s t : R) (v : list R) :
  scale s (scale t v) = scale (t * s) v.
Proof.
  unfold scale. rewrite map_map. apply map_ext. intros x. ring.
Qed.

Lemma scale_1 (v : list R) : scale 1 v = v.
Proof.
  unfold scale. rewrite <- (map_id v) at 2. apply map_ext. intros x. ring.
Qed.

Lemma Rnorm_nonneg (v : list R) : 0 <= Rnorm v.
Proof. apply sqrt_pos. Qed.

Lemma Rnorm_zero (v : list R) : Rnorm v = 0 <-> dot v v = 0.
Proof.
  unfold Rnorm. split; intros H.
  - apply sqrt_eq_0; [apply dot_nonneg | exact H].
  - rewrite H. apply sqrt_0.
Qed.

Lemma Rnorm_scale (t : R) (v : list R) :
  0 <= t -> Rnorm (scale t v) = t * Rnorm v.
Proof.
  intros Ht. unfold Rnorm. rewrite dot_scale_scale.
  rewrite sqrt_mult_alt by nra.
  now rewrite sqrt_square.
Qed.

Lemma zip_mul_const {A : Type} (t : R) (v : list R) (l : list A) :
  List.length l = List.length v ->
  zip_with mul (fin v) (map (fun _ => Fin t) l) = fin (scale t v).
Proof.
  unfold fin, scale. revert l.
  induction v as [| x v IH]; intros [| y l] H; simpl in *;
    try discriminate; auto.
  rewrite IH by lia. reflexivity.
Qed.

Lemma exp_W_col (a v : list R) :
  dot a a <> 1 -> Rnorm v <> 0 ->
  exp_W [fin a] [fin v] = [fin (expR_W a v)].
Proof.
  intros Ha Hn. unfold exp_W. rewrite norm_col_fin.
  np_unfold. cbn [zip_with map divide_where].
  rewrite sum_mul_fin, neq0_fin_nonzero by exact Hn.
  cbn [sub lift2]. rewrite div_fin by lra.
  cbn [tanh lift1]. rewrite div_fin by exact Hn.
  rewrite zip_mul_const; [reflexivity |].
  now rewrite length_map, fin_length.
Qed.

Lemma log_col (a b : list R) :
  1 + 2 * dot (opp a) b + dot a a * dot b b <> 0 ->
  0 < Rnorm (mobiusR (opp a) b) < 1 ->
  log [fin a] [fin b] = [fin (logR a b)].
Proof.
  intros HD [Hw0 Hw1]. unfold log.
  rewrite aneg_fin, mobius_addition_col
    by (rewrite dot_opp_opp; exact HD).
  rewrite norm_col_fin.
  np_unfold. cbn [zip_with map].
  rewrite sum_mul_fin. cbn [sub lift2].
  rewrite arctanh_fin by lra. rewrite mul_fin.
  rewrite map_mul_fin_l, map_div_fin by lra.
  unfold logR. rewrite map_map. reflexivity.
Qed.

(** ** Left cancellation of Moebius addition *)

Lemma opp_opp (a : list R) : opp (opp a) = a.
Proof.
  unfold opp. rewrite map_map. rewrite <- (map_id a) at 2.
  apply map_ext. intros x. ring.
Qed.

Lemma dot_l_mobiusR (a b : list R) :
  List.length a = List.length b ->
  1 + 2 * dot a b + dot a a * dot b b <> 0 ->
  dot a (mobiusR a b)
  = ((1 + 2 * dot a b + dot b b) * dot a a + (1 - dot a a) * dot a b)
    / (1 + 2 * dot a b + dot a a * dot b b).
Proof.
  intros Hlen HD.
  rewrite <- (lin_1_0 a b Hlen) at 1.
  rewrite mobiusR_lin, dot_lin by exact Hlen.
  field. exact HD.
Qed.

(** (-a) (+) (a (+) b) = b *)
Lemma mobiusR_left_cancel (a b : list R) :
  List.length a = List.length b ->
  dot a a < 1 -> dot b b < 1 ->
  mobiusR (opp a) (mobiusR a b) = b.
Proof.
  intros Hlen Ha Hb.
  pose proof (mobius_denominator_pos a b Hlen Ha Hb) as HD.
  assert (HD' : 1 + 2 * dot a b + dot a a * dot b b <> 0) by lra.
  rewrite (mobiusR_lin (opp a)).
  rewrite dot_opp_l, dot_opp_opp, dot_l_mobiusR, dot_mobiusR
    by assumption.
  rewrite <- (lin_m1_0 a b Hlen).
  rewrite (mobiusR_lin a b), lin_lin.
  transitivity (lin 0 1 a b); [| exact (lin_0_1 a b Hlen)].
  set (A := dot a a) in *. set (B := dot b b) in *. set (s := dot a b) in *.
  assert (HA : 1 - A <> 0) by lra.
  assert (Hsq : forall e : R, e = (1 - A) * (1 - A) -> e <> 0).
  { intros e -> E. apply HA. nra. }
  apply lin_ext; field; repeat split; try assumption;
    apply Hsq; ring.
Qed.

(** ** Round trips on real columns *)

Lemma Rnorm_sqr_dot (v : list R) : Rnorm v * Rnorm v = dot v v.
Proof. unfold Rnorm. apply sqrt_sqrt, dot_nonneg. Qed.

Lemma Rnorm_pos (v : list R) : Rnorm v <> 0 -> 0 < Rnorm v.
Proof. intros H. pose proof (Rnorm_nonneg v). lra. Qed.

(** The displacement of [exp] has norm tanh(|v| / (1 - |a|^2)). *)
Lemma Rnorm_expR_W (a v : list R) :
  dot a a < 1 -> Rnorm v <> 0 ->
  Rnorm (expR_W a v) = Rtrigo_def.tanh (Rnorm v / (1 - dot a a)).
Proof.
  intros Ha Hn. pose proof (Rnorm_pos v Hn) as Hpos.
  assert (Hx : 0 < Rnorm v / (1 - dot a a))
    by (apply Rdiv_lt_0_compat; lra).
  pose proof (tanh_pos _ Hx) as HT.
  unfold expR_W. rewrite Rnorm_scale.
  - field. exact Hn.
  - apply Rlt_le, Rdiv_lt_0_compat; assumption.
Qed.

Lemma expR_W_in_ball (a v : list R) :
  dot a a < 1 -> Rnorm v <> 0 ->
  0 < Rnorm (expR_W a v) < 1.
Proof.
  intros Ha Hn. rewrite Rnorm_expR_W by assumption.
  pose proof (Rnorm_pos v Hn) as Hpos.
  split.
  - apply tanh_pos, Rdiv_lt_0_compat; lra.
  - apply tanh_bounds.
Qed.

Lemma logR_expR (a v : list R) :
  List.length a = List.length v ->
  dot a a < 1 -> Rnorm v <> 0 ->
  logR a (expR a v) = v.
Proof.
  intros Hlen Ha Hn.
  pose proof (expR_W_in_ball a v Ha Hn) as [Hw0 Hw1].
  assert (Hwlen : List.length a = List.length (expR_W a v))
    by (unfold expR_W; now rewrite scale_length).
  assert (Hwb : dot (expR_W a v) (expR_W a v) < 1)
    by now apply Rnorm_lt1.
  unfold logR, expR.
  rewrite mobiusR_left_cancel by assumption.
  rewrite Rnorm_expR_W, Rarctanh_tanh by assumption.
  rewrite Rnorm_expR_W in Hw0 by assumption.
  unfold expR_W, scale. rewrite map_map.
  transitivity (map (fun x : R => x) v); [| apply map_id].
  apply map_ext. intros x.
  field. repeat split; lra.
Qed.

Lemma mobiusR_zeros_r_gen (a z : list R) :
  List.length a = List.length z -> dot z z = 0 -> mobiusR a z = a.
Proof.
  intros Hlen Hz. apply dot_self_zero in Hz.
  assert (E : zeros z = zeros a).
  { unfold zeros. clear Hz. revert z Hlen.
    induction a as [| x a IH]; intros [| y z] H; simpl in *;
      try discriminate; auto.
    f_equal. apply IH. lia. }
  rewrite Hz, E. apply mobiusR_zeros_r.
Qed.

(** The Moebius difference of two distinct points of the ball is not
    zero. *)
Lemma mobiusR_diff_nonzero (a b : list R) :
  List.length a = List.length b ->
  dot a a < 1 -> dot b b < 1 -> a <> b ->
  Rnorm (mobiusR (opp a) b) <> 0.
Proof.
  intros Hlen Ha Hb Hne E. apply Hne.
  apply Rnorm_zero in E.
  assert (Hol : List.length (opp a) = List.length b)
    by now rewrite opp_length.
  pose proof (mobiusR_left_cancel (opp a) b Hol) as Hc.
  rewrite dot_opp_opp, opp_opp in Hc. specialize (Hc Ha Hb).
  rewrite <- Hc. symmetry. apply mobiusR_zeros_r_gen; [| exact E].
  now rewrite mobiusR_length, opp_length.
Qed.

(** The logarithm is the Moebius difference rescaled to the length
    (1 - |a|^2) * arctanh |w|. *)
Lemma logR_scale (a b : list R) :
  Rnorm (mobiusR (opp a) b) <> 0 ->
  logR a b
  = scale ((1 - dot a a) * Rarctanh (Rnorm (mobiusR (opp a) b))
           / Rnorm (mobiusR (opp a) b))
      (mobiusR (opp a) b).
Proof.
  intros Hm. unfold logR, scale. apply map_ext. intros x. field. exact Hm.
Qed.

Lemma Rnorm_logR (a b : list R) :
  List.length a = List.length b ->
  dot a a < 1 -> dot b b < 1 -> a <> b ->
  Rnorm (logR a b) = (1 - dot a a) * Rarctanh (Rnorm (mobiusR (opp a) b))
  /\ 0 < Rnorm (logR a b).
Proof.
  intros Hlen Ha Hb Hne.
  assert (Hol : List.length (opp a) = List.length b)
    by now rewrite opp_length.
  pose proof (mobiusR_diff_nonzero a b Hlen Ha Hb Hne) as Hm.
  pose proof (Rnorm_pos _ Hm) as Hm0.
  assert (Hm1 : Rnorm (mobiusR (opp a) b) < 1).
  { apply Rnorm_lt1, mobiusR_in_ball; try assumption.
    now rewrite dot_opp_opp. }
  pose proof (Rarctanh_pos _ (conj Hm0 Hm1)) as Hat.
  assert (Hn : Rnorm (logR a b)
               = (1 - dot a a) * Rarctanh (Rnorm (mobiusR (opp a) b))).
  { rewrite logR_scale by exact Hm. rewrite Rnorm_scale.
    - field. exact Hm.
    - apply Rlt_le, Rdiv_lt_0_compat; [| exact Hm0].
      apply Rmult_lt_0_compat; lra. }
  split; [exact Hn |]. rewrite Hn. apply Rmult_lt_0_compat; lra.
Qed.

Lemma expR_logR (a b : list R) :
  List.length a = List.length b ->
  dot a a < 1 -> dot b b < 1 -> a <> b ->
  expR a (logR a b) = b.
Proof.
  intros Hlen Ha Hb Hne.
  assert (Hol : List.length (opp a) = List.length b)
    by now rewrite opp_length.
  pose proof (mobiusR_diff_nonzero a b Hlen Ha Hb Hne) as Hm.
  pose proof (Rnorm_pos _ Hm) as Hm0.
  assert (Hm1 : Rnorm (mobiusR (opp a) b) < 1).
  { apply Rnorm_lt1, mobiusR_in_ball; try assumption.
    now rewrite dot_opp_opp. }
  destruct (Rnorm_logR a b Hlen Ha Hb Hne) as [Hn _].
  pose proof (Rarctanh_pos _ (conj Hm0 Hm1)) as Hat.
  unfold expR, expR_W. rewrite Hn.
  rewrite logR_scale by exact Hm.
  set (w := mobiusR (opp a) b) in *.
  set (m := Rnorm w) in *.
  replace ((1 - dot a a) * Rarctanh m / (1 - dot a a)) with (Rarctanh m)
    by (field; lra).
  rewrite tanh_Rarctanh by lra.
  rewrite scale_scale.
  replace ((1 - dot a a) * Rarctanh m / m
           * (m / ((1 - dot a a) * Rarctanh m))) with 1
    by (field; repeat split; lra).
  rewrite scale_1. unfold w.
  pose proof (mobiusR_left_cancel (opp a) b Hol) as Hcan.
  rewrite dot_opp_opp, opp_opp in Hcan. now apply Hcan.
Qed.

(** ** Round trips of the methods *)

Lemma exp_col (a v : list R) :
  List.length a = List.length v ->
  dot a a < 1 -> Rnorm v <> 0 ->
  exp [fin a] [fin v] = [fin (expR a v)].
Proof.
  intros Hlen Ha Hn. unfold exp.
  rewrite exp_W_col by (lra || assumption).
  pose proof (expR_W_in_ball a v Ha Hn) as [_ Hw1].
  apply Rnorm_lt1 in Hw1.
  rewrite mobius_addition_col; [reflexivity |].
  assert (Hwlen : List.length a = List.length (expR_W a v))
    by (unfold expR_W; now rewrite scale_length).
  pose proof (mobius_denominator_pos a _ Hwlen Ha Hw1). lra.
Qed.

Lemma expR_length (a v : list R) :
  List.length a = List.length v ->
  List.length (expR a v) = List.length a.
Proof.
  intros Hlen. unfold expR. apply mobiusR_length.
  unfold expR_W. now rewrite scale_length.
Qed.

Lemma expR_in_ball (a v : list R) :
  List.length a = List.length v ->
  dot a a < 1 -> Rnorm v <> 0 ->
  dot (expR a v) (expR a v) < 1.
Proof.
  intros Hlen Ha Hn. unfold expR.
  pose proof (expR_W_in_ball a v Ha Hn) as [_ Hw1].
  apply Rnorm_lt1 in Hw1.
  apply mobiusR_in_ball; try assumption.
  unfold expR_W. now rewrite scale_length.
Qed.

Lemma log_col_ball (a b : list R) :
  List.length a = List.length b ->
  dot a a < 1 -> dot b b < 1 -> a <> b ->
  log [fin a] [fin b] = [fin (logR a b)].
Proof.
  intros Hlen Ha Hb Hne.
  assert (Hol : List.length (opp a) = List.length b)
    by now rewrite opp_length.
  assert (Hoa : dot (opp a) (opp a) < 1) by now rewrite dot_opp_opp.
  apply log_col.
  - pose proof (mobius_denominator_pos (opp a) b Hol Hoa Hb) as HD.
    rewrite dot_opp_opp in HD. lra.
  - split.
    + apply Rnorm_pos. now apply mobiusR_diff_nonzero.
    + apply Rnorm_lt1. now apply mobiusR_in_ball.
Qed.

Lemma log_exp_col (a v : list R) :
  List.length a = List.length v ->
  dot a a < 1 -> Rnorm v <> 0 ->
  log [fin a] (exp [fin a] [fin v]) = [fin v].
Proof.
  intros Hlen Ha Hn.
  rewrite exp_col by assumption.
  pose proof (expR_in_ball a v Hlen Ha Hn) as He.
  pose proof (expR_length a v Hlen) as Hel.
  assert (Hol : List.length (opp a) = List.length (expR a v))
    by now rewrite opp_length.
  assert (Hoa : dot (opp a) (opp a) < 1) by now rewrite dot_opp_opp.
  assert (Hwlen : List.length a = List.length (expR_W a v))
    by (unfold expR_W; now rewrite scale_length).
  pose proof (expR_W_in_ball a v Ha Hn) as Hw.
  rewrite log_col.
  - now rewrite logR_expR.
  - pose proof (mobius_denominator_pos (opp a) _ Hol Hoa He) as HD.
    rewrite dot_opp_opp in HD. lra.
  - unfold expR. rewrite mobiusR_left_cancel; try assumption.
    apply Rnorm_lt1. apply Hw.
Qed.

Lemma logR_length (a b : list R) :
  List.length a = List.length b ->
  List.length (logR a b) = List.length a.
Proof.
  intros Hlen. unfold logR. rewrite length_map, mobiusR_length.
  - apply opp_length.
  - now rewrite opp_length.
Qed.

Lemma exp_log_col (a b : list R) :
  List.length a = List.length b ->
  dot a a < 1 -> dot b b < 1 -> a <> b ->
  exp [fin a] (log [fin a] [fin b]) = [fin b].
Proof.
  intros Hlen Ha Hb Hne.
  rewrite log_col_ball by assumption.
  destruct (Rnorm_logR a b Hlen Ha Hb Hne) as [_ Hpos].
  rewrite exp_col.
  - now rewrite expR_logR.
  - now rewrite logR_length.
  - exact Ha.
  - lra.
Qed.

(** The logarithm inverts the exponential at every valid point, along
    every tangent vector none of whose columns is zero. *)
Lemma log_exp_round_trip (P V : list (list R)) :
  Forall2 (fun a v => List.length a = List.length v) P V ->
  Forall (fun a => dot a a < 1) P ->
  Forall (fun v => dot v v <> 0) V ->
  log (fins P) (exp (fins P) (fins V)) = fins V.
Proof.
  induction 1 as [| a v P V Hlen _ IH]; intros HP HV; [reflexivity |].
  inversion HP as [| ? ? Ha HP']; subst.
  inversion HV as [| ? ? Hv HV']; subst.
  assert (Hn : Rnorm v <> 0) by (intros E; now apply Rnorm_zero in E).
  simpl. rewrite exp_cons.
  pose proof (log_exp_col a v Hlen Ha Hn) as Hc.
  rewrite exp_col in * by assumption.
  simpl. rewrite log_cons, Hc, IH by assumption. reflexivity.
Qed.

(** The exponential inverts the logarithm between valid points that differ
    in every column. *)
Lemma exp_log_round_trip (P Q : list (list R)) :
  Forall2 (fun a b => List.length a = List.length b /\ a <> b) P Q ->
  Forall (fun a => dot a a < 1) P ->
  Forall (fun b => dot b b < 1) Q ->
  exp (fins P) (log (fins P) (fins Q)) = fins Q.
Proof.
  induction 1 as [| a b P Q [Hlen Hne] _ IH]; intros HP HQ; [reflexivity |].
  inversion HP as [| ? ? Ha HP']; subst.
  inversion HQ as [| ? ? Hb HQ']; subst.
  simpl. rewrite log_cons.
  pose proof (exp_log_col a b Hlen Ha Hb Hne) as Hc.
  rewrite log_col_ball in * by assumption.
  simpl. rewrite exp_cons, Hc, IH by assumption. reflexivity.
Qed.

(** ** Moebius addition of valid points, over the reals *)

(** With exact operations the Moebius sum of two valid points of one shape
    is valid: 1 - |a (+) b|^2 is (1 - |a|^2)(1 - |b|^2) over the positive
    denominator.  The margin it leaves below 1 is of the order of the
    product of the two margins, which is what binary64 cannot always
    hold. *)
Lemma mobius_addition_closed_exact (a b : ndarray) :
  same_shape a b -> valid_point a -> valid_point b ->
  valid_point (mobius_addition a b).
Proof.
  intros Hs Ha Hb.
  apply valid_point_fins in Ha. destruct Ha as [A [-> HA]].
  apply valid_point_fins in Hb. destruct Hb as [B [-> HB]].
  apply same_shape_fins in Hs.
  rewrite mobius_addition_fins by assumption.
  apply valid_fins_iff.
  induction Hs as [| x y A B Hlen _ IH]; [constructor |].
  inversion HA; subst. inversion HB; subst.
  simpl. constructor.
  - now apply mobiusR_in_ball.
  - now apply IH.
Qed.

(** ** The worked examples of the specification *)

(** [mobius_addition([0, 0], [0.5, 0])] is [[0.5, 0]]. *)
Example mobius_addition_origin_left :
  mobius_addition [[Fin 0; Fin 0]] [[Fin (1 / 2); Fin 0]]
  = [[Fin (1 / 2); Fin 0]].
Proof.
  change (mobius_addition [fin [0; 0]] [fin [1 / 2; 0]]
          = [fin [1 / 2; 0]]).
  rewrite mobius_addition_col by (unfold dot; simpl; lra).
  unfold mobiusR, dot. simpl.
  do 2 f_equal; [| f_equal]; f_equal; field.
Qed.

(** [dist([0, 0], [0.5, 0])] is [2 * arctanh(0.5)] (about 1.0986). *)
Example dist_from_origin :
  dist [[Fin 0; Fin 0]] [[Fin (1 / 2); Fin 0]] = Fin (2 * Rarctanh (1 / 2)).
Proof.
  assert (Hln : 0 < ln 3).
  { rewrite <- ln_1. apply ln_increasing; lra. }
  assert (Hc : columns_dist [[Fin 0; Fin 0]] [[Fin (1 / 2); Fin 0]]
               = [Fin (ln 3)]).
  { unfold columns_dist. np_unfold. simpl.
    destruct (Req_dec_T
                ((1 - (0 * 0 + (0 * 0 + 0)))
                 * (1 - (1 / 2 * (1 / 2) + (0 * 0 + 0)))) 0) as [E | _];
      [lra |].
    rewrite arccosh_fin by (apply Rmult_le_reg_r with 3; lra).
    do 2 f_equal. unfold Rarccosh.
    match goal with |- ln (?x + R_sqrt.sqrt ?y) = _ =>
      replace y with ((4 / 3) * (4 / 3)) by field;
      replace x with (5 / 3) by field
    end.
    rewrite sqrt_square by lra. f_equal. field. }
  unfold dist. rewrite Hc. simpl.
  destruct (Rlt_dec (ln 3 * ln 3 + 0) 0) as [N | _]; [nra |].
  f_equal. rewrite Rplus_0_r, sqrt_square by lra.
  unfold Rarctanh. replace ((1 + 1 / 2) / (1 - 1 / 2)) with 3 by field.
  field.
Qed.

(** The exponential map at the origin along [1, 0] ends at [tanh 1, 0]. *)
Lemma exp_origin_unit :
  exp [[Fin 0; Fin 0]] [[Fin 1; Fin 0]] = [[Fin (Rtrigo_def.tanh 1); Fin 0]].
Proof.
  assert (Hn : Rnorm [1; 0] = 1).
  { unfold Rnorm, dot. simpl.
    replace (1 * 1 + (0 * 0 + 0)) with 1 by ring. apply sqrt_1. }
  assert (Hd : dot [0; 0] [0; 0] = 0) by (unfold dot; simpl; ring).
  change (exp [fin [0; 0]] [fin [1; 0]]
          = [fin [Rtrigo_def.tanh 1; 0]]).
  rewrite exp_col by (reflexivity || lra).
  do 2 f_equal. unfold expR, expR_W. rewrite Hn, Hd.
  replace (1 / (1 - 0)) with 1 by field.
  unfold mobiusR, scale, dot. simpl.
  f_equal; [| f_equal]; field.
  all: pose proof (tanh_bounds 1); nra.
Qed.

(** ** Properties *)

(** C1 (the code departs from the claim). At the origin of the disc,
    p = [0, 0], the Moebius difference W of [p] with itself is zero, its
    norm is zero, and the unguarded division by that norm at the end of
    [log] yields a non-finite entry (0/0, numpy's nan) in every coordinate:
    [log p p] is not [zero_vector p]. *)
Theorem log_self_at_origin_not_finite :
  mobius_addition (aneg [[Fin 0; Fin 0]]) [[Fin 0; Fin 0]] = [[Fin 0; Fin 0]]
  /\ log [[Fin 0; Fin 0]] [[Fin 0; Fin 0]] = [[NonFinite; NonFinite]]
  /\ log [[Fin 0; Fin 0]] [[Fin 0; Fin 0]] <> zero_vector [[Fin 0; Fin 0]].
Proof.
  assert (H0 : Forall (fun a => dot a a < 1) [[0; 0]]).
  { repeat constructor. unfold dot. simpl. lra. }
  assert (Hlog : log [[Fin 0; Fin 0]] [[Fin 0; Fin 0]]
                 = [[NonFinite; NonFinite]]).
  { exact (log_self [[0; 0]] H0). }
  split; [| split].
  - change (mobius_addition (aneg [fin [0; 0]]) [fin [0; 0]]
            = [fin (zeros [0; 0])]).
    rewrite aneg_fin, mobius_addition_col.
    + rewrite mobiusR_opp_self; [reflexivity |].
      unfold dot. simpl. lra.
    + unfold dot, opp. simpl. lra.
  - exact Hlog.
  - rewrite Hlog. discriminate.
Qed.

(** C2 (the code departs from the claim, by the defect of C1). At
    p = [0, 0] with the zero tangent vector, [exp p v] is [p] and
    [log p (exp p v)] is non-finite in every coordinate instead of [v];
    with q = p, [log p q] is non-finite and so is [exp p (log p q)],
    instead of [q]. *)
Theorem round_trip_at_origin_not_finite :
  log [[Fin 0; Fin 0]] (exp [[Fin 0; Fin 0]] (zero_vector [[Fin 0; Fin 0]]))
  = [[NonFinite; NonFinite]]
  /\ exp [[Fin 0; Fin 0]] (log [[Fin 0; Fin 0]] [[Fin 0; Fin 0]])
     = [[NonFinite; NonFinite]].
Proof.
  assert (H0 : Forall (fun a => dot a a < 1) [[0; 0]]).
  { repeat constructor. unfold dot. simpl. lra. }
  assert (Hlog : log [[Fin 0; Fin 0]] [[Fin 0; Fin 0]]
                 = [[NonFinite; NonFinite]]).
  { exact (log_self [[0; 0]] H0). }
  split.
  - replace (exp [[Fin 0; Fin 0]] (zero_vector [[Fin 0; Fin 0]]))
      with [[Fin 0; Fin 0]]; [exact Hlog |].
    symmetry. exact (exp_zero [[0; 0]]).
  - rewrite Hlog. reflexivity.
Qed.

(** C3. For every valid point [p], [exp p (zero_vector p)] is [p]: the
    tangent norm is zero, the mask of the guarded division is false, so the
    displacement W is the zero array (no division by zero is performed) and
    the result is the finite point [p] itself. *)
Theorem exp_zero_vector (p : ndarray) :
  valid_point p ->
  exp_W p (zero_vector p) = zero_vector p /\ exp p (zero_vector p) = p.
Proof.
  intros Hp. apply valid_point_fins in Hp. destruct Hp as [A [-> _]].
  unfold zero_vector. rewrite zeros_like_fins. split.
  - apply exp_W_zero.
  - apply exp_zero.
Qed.

Lemma exp_zero_vector_witness :
  valid_point [[Fin (1 / 2); Fin 0]]
  /\ exp [[Fin (1 / 2); Fin 0]] (zero_vector [[Fin (1 / 2); Fin 0]])
     = [[Fin (1 / 2); Fin 0]].
Proof.
  split; [exact valid_half |].
  exact (proj2 (exp_zero_vector [[Fin (1 / 2); Fin 0]] valid_half)).
Defined.

Section ClosureInBinary64.

Import PrimFloat.
Local Open Scope float_scope.
#[local] Set Warnings "-inexact-float".

(** C4 (the code departs from the claim). The point a = [0.99999999, 0]
    (the literal is the nearest binary64 number, as in Python) is valid: its
    norm is below 1.  Its Moebius sum with itself, 2a / (1 + a^2) over the
    reals, is 5e-17 short of 1, nearer to 1 than to the last float below 1,
    and the method returns [1, 0]: a column of norm exactly 1, which is not
    a valid point, and at which the conformal factor is infinite. *)
Theorem mobius_addition_reaches_unit_sphere :
  PoincareBall64.valid_point [[0.99999999; 0]] = true
  /\ PoincareBall64.mobius_addition [[0.99999999; 0]] [[0.99999999; 0]]
     = [[1; 0]]
  /\ Np64.linalg_norm_axis0
       (PoincareBall64.mobius_addition [[0.99999999; 0]] [[0.99999999; 0]])
     = [1]
  /\ PoincareBall64.valid_point
       (PoincareBall64.mobius_addition [[0.99999999; 0]] [[0.99999999; 0]])
     = false
  /\ PoincareBall64.conformal_factor
       (PoincareBall64.mobius_addition [[0.99999999; 0]] [[0.99999999; 0]])
     = [infinity].
Proof. repeat split; vm_compute; reflexivity. Qed.

End ClosureInBinary64.

(** C5. For all valid points [p] and [q] of one shape, [dist p q] equals
    [dist q p]; and [dist p p] is 0 for every valid point [p]. *)
Theorem dist_symmetric_and_zero :
  (forall p q : ndarray,
     same_shape p q -> valid_point p -> valid_point q ->
     dist p q = dist q p)
  /\ (forall p : ndarray, valid_point p -> dist p p = Fin 0).
Proof.
  split.
  - intros p q _ _ _. apply dist_sym.
  - intros p Hp. apply valid_point_fins in Hp. destruct Hp as [A [-> HA]].
    now apply dist_self.
Qed.

Lemma dist_symmetric_and_zero_witness :
  dist [[Fin (1 / 2); Fin 0]] [[Fin 0; Fin 0]]
  = dist [[Fin 0; Fin 0]] [[Fin (1 / 2); Fin 0]]
  /\ dist [[Fin (1 / 2); Fin 0]] [[Fin (1 / 2); Fin 0]] = Fin 0.
Proof.
  split.
  - apply (proj1 dist_symmetric_and_zero).
    + repeat constructor.
    + exact valid_half.
    + exact valid_origin.
  - apply (proj2 dist_symmetric_and_zero). exact valid_half.
Defined.

(** C6. Constructing a PoincareBall ends in an exception exactly when
    k < 1 or n < 1.  The exception is then a ValueError whose message names
    the first offending parameter (k before n) and its value, and no
    instance is returned; otherwise the instance carries k, n and the
    dimension k * n. *)
Theorem init_configuration_error (k n : Z) :
  ((exists e, __init__ k n = inl e) <-> (k < 1 \/ n < 1)%Z) /\
  ((k < 1)%Z ->
   __init__ k n
   = inl (ValueError ("Need k >= 1. Value given was k = " ++ str k))) /\
  ((1 <= k)%Z -> (n < 1)%Z ->
   __init__ k n
   = inl (ValueError ("Need n >= 1. Value given was n = " ++ str n))) /\
  ((k < 1 \/ n < 1)%Z -> forall m, __init__ k n <> inr m) /\
  ((1 <= k)%Z -> (1 <= n)%Z ->
   exists m, __init__ k n = inr m /\ _k m = k /\ _n m = n
             /\ dim (base m) = (k * n)%Z).
Proof.
  unfold __init__.
  destruct (Z.ltb_spec k 1) as [Hk | Hk].
  { repeat split; try lia; try discriminate; eauto. }
  destruct (Z.ltb_spec n 1) as [Hn | Hn].
  { repeat split; try lia; try discriminate; eauto. }
  assert (Hname : (n =? 1)%Z = true \/
                  ((n =? 1)%Z = false /\ (n >=? 2)%Z = true)).
  { destruct (Z.eqb_spec n 1) as [-> | Hne]; [now left | right].
    split; [reflexivity |]. apply Z.geb_le. lia. }
  destruct Hname as [-> | [-> ->]].
  - repeat split; try lia; try discriminate.
    + intros [e He]. discriminate He.
    + intros _ _. eexists. repeat split.
  - repeat split; try lia; try discriminate.
    + intros [e He]. discriminate He.
    + intros _ _. eexists. repeat split.
Qed.

Lemma init_configuration_error_witness :
  __init__ 0 3 = inl (ValueError "Need k >= 1. Value given was k = 0")
  /\ __init__ 2 (-4) = inl (ValueError "Need n >= 1. Value given was n = -4")
  /\ exists m, __init__ 2 3 = inr m /\ dim (base m) = 6%Z.
Proof.
  split; [| split].
  - apply (proj1 (proj2 (init_configuration_error 0 3))). lia.
  - apply (proj1 (proj2 (proj2 (init_configuration_error 2 (-4))))); lia.
  - destruct (proj2 (proj2 (proj2 (proj2 (init_configuration_error 2 3)))))
      as [m [Hm [_ [_ Hd]]]]; [lia | lia |].
    exists m. split; [exact Hm | exact Hd].
Defined.

(** C7. For every valid point [x] and every ambient gradient [g] (any
    finite array of the shape of [x]), [euclidean_to_riemannian_gradient x g]
    is [g] rescaled per column by 1 / lambda(x)^2 with
    lambda(x) = 2 / (1 - ||x||^2); at x = [0, 0] and g = [1, 0] the result
    is [0.25, 0]. *)
Theorem gradient_is_rescaling :
  (forall X G : list (list R),
     valid_point (fins X) -> same_shape (fins X) (fins G) ->
     euclidean_to_riemannian_gradient (fins X) (fins G)
     = fins (rescaled_gradient X G))
  /\ euclidean_to_riemannian_gradient [[Fin 0; Fin 0]] [[Fin 1; Fin 0]]
     = [[Fin (1 / 4); Fin 0]].
Proof.
  assert (Hgen : forall X G : list (list R),
             valid_point (fins X) -> same_shape (fins X) (fins G) ->
             euclidean_to_riemannian_gradient (fins X) (fins G)
             = fins (rescaled_gradient X G)).
  { intros X G HX _. apply valid_fins_iff in HX. revert G.
    induction HX as [| a X Ha _ IH]; intros [| g G]; try reflexivity.
    simpl. rewrite gradient_cons, gradient_col by exact Ha.
    now rewrite IH. }
  split; [exact Hgen |].
  change (euclidean_to_riemannian_gradient (fins [[0; 0]]) (fins [[1; 0]])
          = fins [[1 / 4; 0]]).
  rewrite (Hgen [[0; 0]] [[1; 0]] valid_origin) by repeat constructor.
  f_equal.
  assert (Hl : lambdaR [0; 0] = 2).
  { unfold lambdaR. rewrite Rnorm_sqr. unfold dot. simpl. field. }
  unfold rescaled_gradient. cbn [zip_with map]. rewrite Hl.
  replace (1 * (1 / 2 ^ 2)) with (1 / 4) by field.
  replace (0 * (1 / 2 ^ 2)) with 0 by field.
  reflexivity.
Qed.

Lemma gradient_is_rescaling_witness :
  valid_point (fins [[1 / 2; 0]])
  /\ same_shape (fins [[1 / 2; 0]]) (fins [[1; 2]])
  /\ euclidean_to_riemannian_gradient (fins [[1 / 2; 0]]) (fins [[1; 2]])
     = fins (rescaled_gradient [[1 / 2; 0]] [[1; 2]]).
Proof.
  assert (Hs : same_shape (fins [[1 / 2; 0]]) (fins [[1; 2]]))
    by repeat constructor.
  split; [exact valid_half | split; [exact Hs |]].
  exact (proj1 gradient_is_rescaling [[1 / 2; 0]] [[1; 2]] valid_half Hs).
Defined.

(** C8. The retraction of the manifold is its exponential map itself:
    [retraction p v] and [exp p v] are the same result for every point and
    tangent vector.  It is not the first-order step p + v: from
    p = [0, 0] along v = [1, 0] it ends at [tanh 1, 0], inside the ball. *)
Theorem retraction_is_exp :
  (forall p v : ndarray, retraction p v = exp p v)
  /\ retraction [[Fin 0; Fin 0]] [[Fin 1; Fin 0]]
     <> aadd [[Fin 0; Fin 0]] [[Fin 1; Fin 0]].
Proof.
  split; [reflexivity |].
  unfold retraction. rewrite exp_origin_unit.
  np_unfold. simpl. intros [= H].
  pose proof (tanh_bounds 1). lra.
Qed.



Section ConformalFactorInBinary64.

Import PrimFloat.
Local Open Scope float_scope.
#[local] Set Warnings "-inexact-float".


End ConformalFactorInBinary64.

(** C10. Zero is a right identity of Moebius addition: for every array [a]
    of finite entries, [mobius_addition a (zero_vector a)] is [a]. *)
Theorem mobius_addition_zero_right (a : ndarray) :
  finite a -> mobius_addition a (zero_vector a) = a.
Proof.
  intros Ha. apply finite_fins in Ha. destruct Ha as [A ->].
  unfold zero_vector. rewrite zeros_like_fins. apply mobius_addition_zero.
Qed.

Lemma mobius_addition_zero_right_witness :
  mobius_addition [[Fin (1 / 2); Fin 0]] (zero_vector [[Fin (1 / 2); Fin 0]])
  = [[Fin (1 / 2); Fin 0]].
Proof.
  apply (mobius_addition_zero_right [[Fin (1 / 2); Fin 0]]).
  repeat constructor.
Defined.

(** * Further properties of the methods *)

(** ** Arrays of finite entries, column by column *)

Lemma norm_fins (A : list (list R)) :
  linalg_norm_axis0 (fins A) = map (fun a => Fin (Rnorm a)) A.
Proof.
  induction A as [| a A IH]; [reflexivity |].
  simpl. rewrite norm_cons, norm_col_fin, IH. reflexivity.
Qed.

Lemma same_shape_refl (p : ndarray) : same_shape p p.
Proof. unfold same_shape. induction p; constructor; auto. Qed.

Lemma same_shape_sym (p q : ndarray) : same_shape p q -> same_shape q p.
Proof. unfold same_shape. induction 1; constructor; auto. Qed.

(** ** Moebius addition: the left identity *)

Lemma mobiusR_zeros_l (b : list R) : mobiusR (zeros b) b = b.
Proof.
  unfold mobiusR. rewrite (dot_comm (zeros b) b), dot_zeros_r, dot_zeros.
  generalize (dot b b). intros nb. unfold zeros.
  induction b as [| y b IH]; simpl; [reflexivity |].
  rewrite IH. f_equal. field.
Qed.

(** X1. Zero is a left identity of Moebius addition as well: for every
    array [b] of finite entries, [mobius_addition (zero_vector b) b] is
    [b]. *)
Theorem mobius_addition_zero_left (b : ndarray) :
  finite b -> mobius_addition (zero_vector b) b = b.
Proof.
  intros Hb. apply finite_fins in Hb. destruct Hb as [B ->].
  unfold zero_vector. rewrite zeros_like_fins.
  induction B as [| b B IH]; [reflexivity |].
  simpl. rewrite mobius_addition_cons, mobius_addition_col.
  - rewrite mobiusR_zeros_l. simpl. f_equal. exact IH.
  - rewrite (dot_comm (zeros b) b), dot_zeros_r, dot_zeros. lra.
Qed.

Lemma mobius_addition_zero_left_witness :
  mobius_addition (zero_vector [[Fin (1 / 2); Fin 0]]) [[Fin (1 / 2); Fin 0]]
  = [[Fin (1 / 2); Fin 0]].
Proof.
  apply (mobius_addition_zero_left [[Fin (1 / 2); Fin 0]]).
  repeat constructor.
Defined.

(** ** Zero columns *)

Lemma zeros_same_length (a v : list R) :
  List.length a = List.length v -> zeros v = zeros a.
Proof.
  unfold zeros. revert v.
  induction a as [| x a IH]; intros [| y v] H; simpl in *;
    try discriminate; auto.
  f_equal. apply IH. lia.
Qed.

(** ** The metric: inner product, norm, gradient *)

Lemma add_0_r_add (x y : num) : add (add x (Fin 0)) y = add x y.
Proof. destruct x, y; simpl; try reflexivity. f_equal. ring. Qed.

Lemma inner_product_cons (a u v : list num) (p s t : ndarray) :
  inner_product (a :: p) (u :: s) (v :: t)
  = add (inner_product [a] [u] [v]) (inner_product p s t).
Proof.
  unfold inner_product, conformal_factor. np_unfold. simpl.
  now rewrite add_0_r_add.
Qed.

Lemma inner_product_nil_l (s t : ndarray) : inner_product [] s t = Fin 0.
Proof. destruct s, t; reflexivity. Qed.

Lemma sum_mul_scaled_fin (u v : list R) (c : R) :
  sum (map (fun e => mul e (Fin c)) (zip_with mul (fin u) (fin v)))
  = Fin (c * dot u v).
Proof.
  unfold mul at 2. rewrite zip_with_fin, map_mul_fin, sum_fin. f_equal.
  unfold dot. generalize (zip_with Rmult u v). intros l.
  induction l as [| x l IH]; simpl; [ring |]. rewrite IH. ring.
Qed.

Lemma inner_product_col (a u v : list R) :
  dot a a < 1 ->
  inner_product [fin a] [fin u] [fin v] = Fin ((lambdaR a) ^ 2 * dot u v).
Proof.
  intros Ha. unfold inner_product.
  rewrite conformal_factor_col by exact Ha.
  np_unfold. cbn [map zip_with]. unfold square. rewrite mul_fin.
  rewrite sum_mul_scaled_fin. simpl. f_equal. ring.
Qed.

Lemma inner_product_fins (P U V : list (list R)) :
  Forall (fun a => dot a a < 1) P ->
  inner_product (fins P) (fins U) (fins V) = Fin (inner_productR P U V).
Proof.
  intros HP. revert U V.
  induction HP as [| a P Ha _ IH]; intros U V.
  - apply inner_product_nil_l.
  - destruct U as [| u U]; [reflexivity |].
    destruct V as [| v V]; [reflexivity |].
    simpl fins. rewrite inner_product_cons, inner_product_col, IH
      by exact Ha.
    reflexivity.
Qed.

Lemma amul_comm (u v : ndarray) : amul u v = amul v u.
Proof.
  unfold amul. apply zip_with_comm. intros c d.
  apply zip_with_comm, mul_comm.
Qed.

Lemma inner_product_sym (p u v : ndarray) :
  inner_product p u v = inner_product p v u.
Proof. unfold inner_product. now rewrite (amul_comm u v). Qed.

Lemma dot_plus_l (u u' v : list R) :
  List.length u = List.length u' ->
  dot (zip_with Rplus u u') v = dot u v + dot u' v.
Proof.
  unfold dot. revert u' v.
  induction u as [| x u IH]; intros [| x' u'] [| y v] H; simpl in *;
    try discriminate; try ring.
  rewrite IH by lia. ring.
Qed.

Lemma aadd_fins (U U' : list (list R)) :
  aadd (fins U) (fins U') = fins (zip_with (zip_with Rplus) U U').
Proof.
  unfold aadd. revert U'.
  induction U as [| u U IH]; intros [| u' U']; simpl; auto.
  unfold add at 1. now rewrite zip_with_fin, IH.
Qed.

Lemma inner_productR_plus_l (P U U' V : list (list R)) :
  Forall2 (fun a u => List.length a = List.length u) P U ->
  Forall2 (fun a u => List.length a = List.length u) P U' ->
  Forall2 (fun a v => List.length a = List.length v) P V ->
  inner_productR P (zip_with (zip_with Rplus) U U') V
  = inner_productR P U V + inner_productR P U' V.
Proof.
  intros HU. revert U' V.
  induction HU as [| a u P U Hu _ IH]; intros U' V HU' HV.
  - simpl. ring.
  - inversion HU' as [| ? u' ? U'' Hu' HU'']; subst.
    inversion HV as [| ? v ? V' Hv HV']; subst.
    simpl. rewrite dot_plus_l by congruence.
    rewrite IH by assumption. ring.
Qed.

(** X8. The Riemannian inner product is symmetric in its two tangent
    vectors (for all arrays), and at a valid point it is additive in a
    tangent vector: <u + u', v> = <u, v> + <u', v> for tangent vectors of
    finite entries and of the shape of the point. *)
Theorem inner_product_symmetric_additive :
  (forall p u v : ndarray, inner_product p u v = inner_product p v u)
  /\ (forall p u u' v : ndarray,
        valid_point p -> finite u -> finite u' -> finite v ->
        same_shape p u -> same_shape p u' -> same_shape p v ->
        inner_product p (aadd u u') v
        = add (inner_product p u v) (inner_product p u' v)).
Proof.
  split; [exact inner_product_sym |].
  intros p u u' v Hp Hu Hu' Hv Hsu Hsu' Hsv.
  apply valid_point_fins in Hp. destruct Hp as [P [-> HP]].
  apply finite_fins in Hu. destruct Hu as [U ->].
  apply finite_fins in Hu'. destruct Hu' as [U' ->].
  apply finite_fins in Hv. destruct Hv as [V ->].
  apply same_shape_fins in Hsu, Hsu', Hsv.
  rewrite aadd_fins, !inner_product_fins by exact HP.
  simpl. now rewrite inner_productR_plus_l.
Qed.

Lemma inner_product_symmetric_additive_witness :
  inner_product [[Fin (1 / 2); Fin 0]]
    (aadd [[Fin 1; Fin 2]] [[Fin 3; Fin 4]]) [[Fin 5; Fin 6]]
  = add (inner_product [[Fin (1 / 2); Fin 0]] [[Fin 1; Fin 2]]
           [[Fin 5; Fin 6]])
      (inner_product [[Fin (1 / 2); Fin 0]] [[Fin 3; Fin 4]]
         [[Fin 5; Fin 6]]).
Proof.
  apply (proj2 inner_product_symmetric_additive);
    try exact valid_half; repeat constructor.
Defined.

Lemma inner_productR_self_nonneg (P V : list (list R)) :
  0 <= inner_productR P V V.
Proof.
  revert V. induction P as [| a P IH]; intros [| v V]; simpl; try lra.
  pose proof (dot_nonneg v) as Hv. pose proof (IH V) as HV.
  pose proof (Rle_0_sqr (lambdaR a)) as Hl. unfold Rsqr in Hl. nra.
Qed.

Lemma inner_productR_self_zero (P V : list (list R)) :
  Forall2 (fun a v => List.length a = List.length v) P V ->
  Forall (fun a => dot a a < 1) P ->
  (inner_productR P V V = 0 <-> V = map zeros P).
Proof.
  induction 1 as [| a v P V Hlen _ IH]; intros HP.
  - simpl. split; reflexivity.
  - inversion HP as [| ? ? Ha HP']; subst. simpl.
    pose proof (dot_nonneg v) as Hv.
    pose proof (inner_productR_self_nonneg P V) as HV.
    pose proof (lambdaR_ge_2 a Ha) as Hl.
    assert (Hl2 : 0 < lambdaR a * (lambdaR a * 1)) by nra.
    split.
    + intros H.
      assert (Hd : dot v v = 0) by nra.
      assert (Hr : inner_productR P V V = 0) by nra.
      apply dot_self_zero in Hd.
      rewrite Hd at 1. rewrite (zeros_same_length a v Hlen).
      f_equal. now apply IH.
    + intros [= Hv0 HV0].
      apply (IH HP') in HV0. rewrite HV0.
      rewrite Hv0, dot_zeros. ring.
Qed.

(** X9. At a valid point [p], the norm of a tangent vector [v] (finite
    entries, shape of [p]) is a finite number r >= 0 whose square is
    [inner_product p v v], and r = 0 exactly when [v] is
    [zero_vector p]. *)
Theorem norm_positive_definite (p v : ndarray) :
  valid_point p -> finite v -> same_shape p v ->
  exists r, norm p v = Fin r /\ 0 <= r
            /\ inner_product p v v = Fin (r * r)
            /\ (r = 0 <-> v = zero_vector p).
Proof.
  intros Hp Hv Hs.
  apply valid_point_fins in Hp. destruct Hp as [P [-> HP]].
  apply finite_fins in Hv. destruct Hv as [V ->].
  apply same_shape_fins in Hs.
  pose proof (inner_productR_self_nonneg P V) as Hn.
  exists (R_sqrt.sqrt (inner_productR P V V)).
  unfold norm. rewrite inner_product_fins by exact HP.
  rewrite sqrt_fin by exact Hn. repeat split.
  - apply sqrt_pos.
  - now rewrite sqrt_sqrt.
  - intros E. apply sqrt_eq_0 in E; [| exact Hn].
    apply (inner_productR_self_zero P V Hs HP) in E.
    unfold zero_vector. rewrite zeros_like_fins. now rewrite E.
  - intros E. unfold zero_vector in E. rewrite zeros_like_fins in E.
    assert (EV : V = map zeros P).
    { clear -E. revert E. generalize (map zeros P). intros Z.
      revert Z. induction V as [| v V IH]; intros [| z Z] E; simpl in E;
        try discriminate; auto.
      injection E as E1 E2. apply fin_inj in E1. subst.
      f_equal. now apply IH. }
    apply (inner_productR_self_zero P V Hs HP) in EV.
    rewrite EV. apply sqrt_0.
Qed.

Lemma norm_positive_definite_witness :
  exists r, norm [[Fin (1 / 2); Fin 0]] [[Fin 3; Fin (-4)]] = Fin r
            /\ 0 <= r.
Proof.
  destruct (norm_positive_definite [[Fin (1 / 2); Fin 0]]
              [[Fin 3; Fin (-4)]]) as [r [Hr [H0 _]]].
  - exact valid_half.
  - repeat constructor.
  - repeat constructor.
  - exists r. split; assumption.
Defined.

Lemma sum_all_amul_fins (G V : list (list R)) :
  sum_all (amul (fins G) (fins V)) = Fin (dots G V).
Proof.
  unfold sum_all, sum_axis0, amul. revert V.
  induction G as [| g G IH]; intros [| v V]; simpl; try reflexivity.
  rewrite sum_mul_fin.
  unfold sum in IH. unfold sum at 1. simpl. rewrite IH. reflexivity.
Qed.

Lemma gradient_fins (X G : list (list R)) :
  Forall (fun a => dot a a < 1) X ->
  euclidean_to_riemannian_gradient (fins X) (fins G)
  = fins (rescaled_gradient X G).
Proof.
  intros HX. revert G.
  induction HX as [| a X Ha _ IH]; intros [| g G]; try reflexivity.
  simpl. rewrite gradient_cons, gradient_col by exact Ha.
  now rewrite IH.
Qed.

Lemma dot_scaled_l (c : R) (g v : list R) :
  dot (map (fun e => e * c) g) v = c * dot g v.
Proof.
  unfold dot. revert v.
  induction g as [| x g IH]; intros [| y v]; simpl; try ring.
  rewrite IH. ring.
Qed.

Lemma inner_productR_gradient (X G V : list (list R)) :
  Forall (fun a => dot a a < 1) X ->
  Forall2 (fun a g => List.length a = List.length g) X G ->
  Forall2 (fun a v => List.length a = List.length v) X V ->
  inner_productR X (rescaled_gradient X G) V = dots G V.
Proof.
  intros HX HG. revert V.
  induction HG as [| a g X G _ _ IH]; intros V HV.
  - inversion HV; subst. reflexivity.
  - inversion HV as [| ? v ? V' _ HV']; subst.
    inversion HX as [| ? ? Ha HX']; subst.
    simpl. rewrite dot_scaled_l.
    unfold rescaled_gradient in IH. rewrite IH by assumption.
    pose proof (lambdaR_pos a Ha) as Hl. field. lra.
Qed.

(** X10. The converted gradient represents the ambient one under the
    metric: at a valid point [x], for an ambient gradient [g] and a
    tangent vector [v] (finite entries, shape of [x]),
    [inner_product x (euclidean_to_riemannian_gradient x g) v] is the
    Euclidean product [np.sum(g * v)]. *)
Theorem gradient_represents_differential (x g v : ndarray) :
  valid_point x -> finite g -> finite v ->
  same_shape x g -> same_shape x v ->
  inner_product x (euclidean_to_riemannian_gradient x g) v
  = sum_all (amul g v).
Proof.
  intros Hx Hg Hv Hsg Hsv.
  apply valid_point_fins in Hx. destruct Hx as [X [-> HX]].
  apply finite_fins in Hg. destruct Hg as [G ->].
  apply finite_fins in Hv. destruct Hv as [V ->].
  apply same_shape_fins in Hsg, Hsv.
  rewrite gradient_fins, inner_product_fins, sum_all_amul_fins
    by exact HX.
  now rewrite inner_productR_gradient.
Qed.

Lemma gradient_represents_differential_witness :
  inner_product [[Fin (1 / 2); Fin 0]]
    (euclidean_to_riemannian_gradient [[Fin (1 / 2); Fin 0]]
       [[Fin 1; Fin 2]])
    [[Fin 3; Fin (-4)]]
  = sum_all (amul [[Fin 1; Fin 2]] [[Fin 3; Fin (-4)]]).
Proof.
  apply gradient_represents_differential;
    try exact valid_half; repeat constructor.
Defined.

(** ** The inverse hyperbolic cosine *)

Lemma Rarccosh_nonneg (x : R) : 1 <= x -> 0 <= Rarccosh x.
Proof.
  intros Hx. unfold Rarccosh.
  pose proof (sqrt_pos (x * x - 1)) as Hs.
  destruct (Req_dec_T (x + R_sqrt.sqrt (x * x - 1)) 1) as [E | NE].
  - rewrite E, ln_1. lra.
  - apply Rlt_le. rewrite <- ln_1. apply ln_increasing; lra.
Qed.

(** arccosh((1 + m^2) / (1 - m^2)) = 2 arctanh m on [0, 1). *)
Lemma Rarccosh_Rarctanh (m : R) :
  0 <= m < 1 ->
  Rarccosh ((1 + m * m) / (1 - m * m)) = 2 * Rarctanh m.
Proof.
  intros [H0 H1]. unfold Rarccosh, Rarctanh.
  assert (Hd : 0 < 1 - m * m) by nra.
  replace ((1 + m * m) / (1 - m * m) * ((1 + m * m) / (1 - m * m)) - 1)
    with ((2 * m / (1 - m * m)) * (2 * m / (1 - m * m)))
    by (field; lra).
  rewrite sqrt_square.
  - replace ((1 + m * m) / (1 - m * m) + 2 * m / (1 - m * m))
      with ((1 + m) / (1 - m)) by (field; split; nra).
    field.
  - apply Rmult_le_pos; [lra |]. apply Rlt_le, Rinv_0_lt_compat. exact Hd.
Qed.

(** ** Distance on real columns *)

Lemma dot_sub (a b : list R) :
  List.length a = List.length b ->
  dot (zip_with Rminus a b) (zip_with Rminus a b)
  = dot a a - 2 * dot a b + dot b b.
Proof.
  unfold dot. revert b.
  induction a as [| x a IH]; intros [| y b] H; simpl in *;
    try discriminate; [ring |].
  rewrite IH by lia. ring.
Qed.

Lemma columns_dist_arg_ge_1 (a b : list R) :
  dot a a < 1 -> dot b b < 1 ->
  1 <= 1 + 2 * dot (zip_with Rminus a b) (zip_with Rminus a b)
           / ((1 - dot a a) * (1 - dot b b)).
Proof.
  intros Ha Hb.
  pose proof (dot_nonneg (zip_with Rminus a b)) as Hn.
  assert (Hd : 0 < (1 - dot a a) * (1 - dot b b)) by nra.
  assert (0 <= 2 * dot (zip_with Rminus a b) (zip_with Rminus a b)
               / ((1 - dot a a) * (1 - dot b b))).
  { apply Rmult_le_pos; [lra |]. apply Rlt_le, Rinv_0_lt_compat, Hd. }
  lra.
Qed.

Lemma columns_distR_nonneg (a b : list R) :
  dot a a < 1 -> dot b b < 1 -> 0 <= columns_distR a b.
Proof.
  intros Ha Hb. apply Rarccosh_nonneg. now apply columns_dist_arg_ge_1.
Qed.

Lemma columns_dist_col (a b : list R) :
  dot a a < 1 -> dot b b < 1 ->
  columns_dist [fin a] [fin b] = [Fin (columns_distR a b)].
Proof.
  intros Ha Hb. unfold columns_dist. np_unfold. simpl.
  unfold sub at 1 2. rewrite zip_with_fin, !sum_mul_fin. simpl.
  destruct (Req_dec_T ((1 - dot a a) * (1 - dot b b)) 0) as [E | _]; [nra |].
  rewrite arccosh_fin by now apply columns_dist_arg_ge_1.
  reflexivity.
Qed.

Lemma columns_dist_fins (P Q : list (list R)) :
  Forall (fun a => dot a a < 1) P ->
  Forall (fun b => dot b b < 1) Q ->
  columns_dist (fins P) (fins Q) = fin (zip_with columns_distR P Q).
Proof.
  intros HP. revert Q.
  induction HP as [| a P Ha _ IH]; intros Q HQ; [reflexivity |].
  destruct HQ as [| b Q Hb HQ]; [reflexivity |].
  simpl. rewrite columns_dist_cons, columns_dist_col, IH by assumption.
  reflexivity.
Qed.

(** ** Distance from the origin *)

(** The distance between two columns is twice the inverse hyperbolic
    tangent of the norm of their Moebius difference. *)
Lemma columns_distR_mobius (a b : list R) :
  List.length a = List.length b ->
  dot a a < 1 -> dot b b < 1 ->
  columns_distR a b = 2 * Rarctanh (Rnorm (mobiusR (opp a) b)).
Proof.
  intros Hlen Ha Hb.
  assert (Hol : List.length (opp a) = List.length b)
    by now rewrite opp_length.
  assert (Hoa : dot (opp a) (opp a) < 1) by now rewrite dot_opp_opp.
  pose proof (mobius_denominator_pos (opp a) b Hol Hoa Hb) as HD.
  pose proof (mobiusR_in_ball (opp a) b Hol Hoa Hb) as Hball.
  pose proof (Rnorm_nonneg (mobiusR (opp a) b)) as Hm0.
  assert (Hm1 : Rnorm (mobiusR (opp a) b) < 1) by now apply Rnorm_lt1.
  rewrite <- Rarccosh_Rarctanh by lra.
  rewrite Rnorm_sqr_dot, dot_mobiusR by (auto; lra).
  unfold columns_distR. rewrite dot_sub by exact Hlen.
  rewrite dot_opp_opp, dot_opp_l in HD.
  rewrite !dot_opp_opp, !dot_opp_l.
  f_equal. field. repeat split; try lra.
  intros E.
  assert (E' : (1 - dot a a) * (1 - dot b b) = 0) by lra.
  apply Rmult_integral in E'. lra.
Qed.

Lemma columns_distR_origin (b : list R) :
  dot b b < 1 -> columns_distR (zeros b) b = 2 * Rarctanh (Rnorm b).
Proof.
  intros Hb.
  assert (Hlen : List.length (zeros b) = List.length b)
    by (unfold zeros; apply length_map).
  assert (Hz : dot (zeros b) (zeros b) < 1) by (rewrite dot_zeros; lra).
  rewrite columns_distR_mobius by assumption.
  replace (opp (zeros b)) with (zeros b).
  - now rewrite mobiusR_zeros_l.
  - unfold opp, zeros. rewrite map_map. apply map_ext. intros _. ring.
Qed.

(** X12. From the origin the distance of each ball is twice the inverse
    hyperbolic tangent of the Euclidean norm: for a valid point [q],
    [columns_dist (zero_vector q) q] is [2 * arctanh(norm(q, axis=0))]. *)
Theorem columns_dist_from_origin (q : ndarray) :
  valid_point q ->
  columns_dist (zero_vector q) q
  = smul 2 (map arctanh (linalg_norm_axis0 q)).
Proof.
  intros Hq. apply valid_point_fins in Hq. destruct Hq as [Q [-> HQ]].
  unfold zero_vector. rewrite zeros_like_fins.
  rewrite columns_dist_fins, norm_fins.
  - induction HQ as [| b Q Hb _ IH]; [reflexivity |].
    cbn [map zip_with fin smul] in *.
    rewrite columns_distR_origin by exact Hb.
    pose proof (Rnorm_nonneg b) as H0.
    assert (H1 : Rnorm b < 1) by now apply Rnorm_lt1.
    rewrite arctanh_fin by lra. rewrite mul_fin.
    f_equal. exact IH.
  - clear HQ. induction Q; simpl; constructor; auto.
    rewrite dot_zeros. lra.
  - exact HQ.
Qed.

Lemma columns_dist_from_origin_witness :
  columns_dist (zero_vector [[Fin (1 / 2); Fin 0]]) [[Fin (1 / 2); Fin 0]]
  = smul 2 (map arctanh (linalg_norm_axis0 [[Fin (1 / 2); Fin 0]])).
Proof. exact (columns_dist_from_origin _ valid_half). Defined.

(** ** The Hessian conversion *)

Lemma hessian_cons (a g h v : list num) (p q r s : ndarray) :
  euclidean_to_riemannian_hessian (a :: p) (g :: q) (h :: r) (v :: s)
  = euclidean_to_riemannian_hessian [a] [g] [h] [v]
    ++ euclidean_to_riemannian_hessian p q r s.
Proof. reflexivity. Qed.

Lemma map_zero_mul (l : list R) : map (fun x => 0 * x) l = zeros l.
Proof. unfold zeros. apply map_ext. intros x. ring. Qed.

Lemma map_mul_zeros (c : R) (l : list R) :
  map (fun x => c * x) (zeros l) = zeros l.
Proof.
  unfold zeros. rewrite map_map. apply map_ext. intros x. ring.
Qed.

Lemma zip_minus_zeros (l m : list R) :
  List.length l = List.length m ->
  zip_with Rminus (zeros l) (zeros m) = zeros l.
Proof.
  unfold zeros. revert m.
  induction l as [| x l IH]; intros [| y m] H; simpl in *;
    try discriminate; auto.
  rewrite IH by lia. f_equal. ring.
Qed.

Lemma zip_plus_zeros_l (l m : list R) :
  List.length l = List.length m -> zip_with Rplus (zeros l) m = m.
Proof.
  unfold zeros. revert m.
  induction l as [| x l IH]; intros [| y m] H; simpl in *;
    try discriminate; auto.
  rewrite IH by lia. f_equal. ring.
Qed.

Lemma dot_zeros_l (z v : list R) : dot (zeros z) v = 0.
Proof.
  unfold dot, zeros. revert v.
  induction z as [| x z IH]; intros [| y v]; simpl; try reflexivity.
  rewrite IH. ring.
Qed.

Lemma dot_zeros_r_gen (v z : list R) : dot v (zeros z) = 0.
Proof. rewrite dot_comm. apply dot_zeros_l. Qed.

(** One column of the Hessian conversion, on finite entries. *)
Lemma hessian_col (a g h v : list R) :
  dot a a < 1 ->
  euclidean_to_riemannian_hessian [fin a] [fin g] [fin h] [fin v]
  = [fin (map (fun x => x / lambdaR a)
            (zip_with Rplus
               (zip_with Rminus
                  (zip_with Rminus
                     (map (fun x => dot g a * x) v)
                     (map (fun x => dot a v * x) g))
                  (map (fun x => dot g v * x) a))
               (map (fun x => x / lambdaR a) h)))].
Proof.
  intros Ha. pose proof (lambdaR_pos a Ha) as Hl.
  unfold euclidean_to_riemannian_hessian.
  rewrite conformal_factor_col by exact Ha.
  np_unfold. cbn [map zip_with].
  rewrite !sum_mul_fin, !map_mul_fin_l.
  unfold sub at 1 2. rewrite !zip_with_fin.
  rewrite map_div_fin by lra.
  unfold add at 1. rewrite zip_with_fin.
  rewrite map_div_fin by lra. reflexivity.
Qed.

Lemma hessian_col_degenerate (a g h v : list R) :
  List.length a = List.length g ->
  List.length a = List.length h ->
  List.length a = List.length v ->
  dot a a < 1 -> g = zeros a \/ a = zeros a ->
  euclidean_to_riemannian_hessian [fin a] [fin g] [fin h] [fin v]
  = euclidean_to_riemannian_gradient [fin a] [fin h].
Proof.
  intros Hg Hh Hv Ha Hz. pose proof (lambdaR_pos a Ha) as Hl.
  rewrite hessian_col, gradient_col by exact Ha.
  assert (Hzero :
            zip_with Rminus
              (zip_with Rminus
                 (map (fun x => dot g a * x) v)
                 (map (fun x => dot a v * x) g))
              (map (fun x => dot g v * x) a)
            = zeros h).
  { rewrite <- (zeros_same_length h a (eq_sym Hh)).
    assert (Hzz : zip_with Rminus (zip_with Rminus (zeros a) (zeros a))
                    (zeros a) = zeros a)
      by now rewrite !zip_minus_zeros.
    destruct Hz as [-> | Hz].
    - rewrite !dot_zeros_l, map_zero_mul, map_mul_zeros, map_zero_mul.
      now rewrite (zeros_same_length a v Hv).
    - assert (Hga : dot g a = 0) by (rewrite Hz; apply dot_zeros_r_gen).
      assert (Hav : dot a v = 0) by (rewrite Hz; apply dot_zeros_l).
      assert (Hma : map (fun x => dot g v * x) a = zeros a).
      { rewrite Hz at 1. apply map_mul_zeros. }
      rewrite Hga, Hav, Hma, !map_zero_mul.
      now rewrite (zeros_same_length a v Hv), (zeros_same_length a g Hg). }
  rewrite Hzero, zip_plus_zeros_l
    by (unfold zeros; now rewrite !length_map).
  rewrite map_map. do 2 f_equal. apply map_ext. intros x.
  field. lra.
Qed.

(** X16. Where the correction terms of the Koszul formula vanish, at a
    critical point of the cost (ambient gradient zero) or at the origin of
    the balls, the Hessian conversion is the conformal rescaling of the
    ambient Hessian: for a valid point [x] and arrays of finite entries
    and of the shape of [x], [euclidean_to_riemannian_hessian x g H v]
    is [euclidean_to_riemannian_gradient x H], whatever [v]. *)
Theorem hessian_without_correction (x g H v : ndarray) :
  valid_point x -> finite g -> finite H -> finite v ->
  same_shape x g -> same_shape x H -> same_shape x v ->
  g = zero_vector x \/ x = zero_vector x ->
  euclidean_to_riemannian_hessian x g H v
  = euclidean_to_riemannian_gradient x H.
Proof.
  intros Hx Hg HH Hv Hsg HsH Hsv Hz.
  apply valid_point_fins in Hx. destruct Hx as [X [-> HX]].
  apply finite_fins in Hg. destruct Hg as [G ->].
  apply finite_fins in HH. destruct HH as [L ->].
  apply finite_fins in Hv. destruct Hv as [V ->].
  apply same_shape_fins in Hsg, HsH, Hsv.
  unfold zero_vector in Hz. rewrite zeros_like_fins in Hz.
  assert (Hz' : Forall2 (fun a g => g = zeros a \/ a = zeros a) X G).
  { destruct Hz as [E | E].
    - clear -E Hsg. revert E.
      induction Hsg as [| a g X G _ _ IH]; intros E; [constructor |].
      simpl in E. injection E as E1 E2. apply fin_inj in E1.
      constructor; [now left | now apply IH].
    - clear -E Hsg. revert E.
      induction Hsg as [| a g X G _ _ IH]; intros E; [constructor |].
      simpl in E. injection E as E1 E2. apply fin_inj in E1.
      constructor; [now right | now apply IH]. }
  clear Hz. revert L V HsH Hsv.
  induction Hz' as [| a g X G Hz _ IH]; intros L V HsH Hsv.
  - inversion HsH; subst. reflexivity.
  - inversion Hsg as [| ? ? ? ? Hlg Hsg']; subst.
    inversion HsH as [| ? h ? L' Hlh HsH']; subst.
    inversion Hsv as [| ? v ? V' Hlv Hsv']; subst.
    inversion HX as [| ? ? Ha HX']; subst.
    simpl fins. rewrite hessian_cons, gradient_cons.
    rewrite hessian_col_degenerate by assumption.
    now rewrite IH.
Qed.

Lemma hessian_without_correction_witness :
  euclidean_to_riemannian_hessian [[Fin (1 / 2); Fin 0]]
    (zero_vector [[Fin (1 / 2); Fin 0]]) [[Fin 1; Fin 2]]
    [[Fin 3; Fin (-4)]]
  = euclidean_to_riemannian_gradient [[Fin (1 / 2); Fin 0]]
      [[Fin 1; Fin 2]].
Proof.
  apply hessian_without_correction;
    try exact valid_half; try (now left); repeat constructor.
Defined.

(** ** Random points *)

Lemma init_inr (k n : Z) (self : t) :
  __init__ k n = inr self ->
  (1 <= k)%Z /\ (1 <= n)%Z /\ _k self = k /\ _n self = n
  /\ dim (base self) = (k * n)%Z
  /\ name (base self)
     = (if (n =? 1)%Z then "Poincare ball B(" ++ str k ++ ")"
        else "Poincare ball B(" ++ str k ++ ")^" ++ str n)%string.
Proof.
  unfold __init__.
  destruct (Z.ltb_spec k 1) as [Hk | Hk]; [discriminate |].
  destruct (Z.ltb_spec n 1) as [Hn | Hn]; [discriminate |].
  destruct (Z.eqb_spec n 1) as [-> | Hne].
  - intros [= <-]. simpl. repeat split; lia.
  - assert (Hge : (n >=? 2)%Z = true) by (apply Z.geb_le; lia).
    rewrite Hge. intros [= <-]. simpl. repeat split; lia.
Qed.

Lemma power_unit_interval (u y : R) :
  0 <= u < 1 -> 0 < y ->
  exists r, power (Fin u) y = Fin r /\ 0 <= r < 1.
Proof.
  intros [H0 H1] Hy. unfold power.
  destruct (Rlt_dec 0 u) as [Hu | Hu].
  - exists (Rpower u y). split; [reflexivity |].
    unfold Rpower. split; [apply Rlt_le, exp_pos |].
    rewrite <- exp_0. apply exp_increasing.
    assert (Hln : ln u < 0) by (rewrite <- ln_1; apply ln_increasing; lra).
    nra.
  - destruct (Req_dec_T u 0) as [_ | N]; [| lra].
    destruct (Rlt_dec 0 y) as [_ | N]; [| lra].
    exists 0. split; [reflexivity | lra].
Qed.

(** X18. [random_point] has no guard of its own: for an instance built by
    the constructor, a column of zeros in the normal draw is divided by its
    norm 0 and comes back non-finite in every entry, so the result is not
    a valid point. *)
Theorem random_point_zero_draw (k n : Z) (self : t) (c : list R) (u : R) :
  __init__ k n = inr self -> 0 <= u < 1 -> c <> [] ->
  random_point self [fin (zeros c)] [Fin u]
  = Some [map (fun _ => NonFinite) c]
  /\ ~ valid_point [map (fun _ => NonFinite) c].
Proof.
  intros Hself Hu Hc.
  destruct (init_inr k n self Hself) as [Hk [_ [Hks _]]].
  assert (Hk0 : (_k self =? 0)%Z = false) by (apply Z.eqb_neq; lia).
  assert (Hy : 0 < 1 / IZR (_k self)).
  { apply Rdiv_lt_0_compat; [lra |]. apply IZR_lt. lia. }
  destruct (power_unit_interval u _ Hu Hy) as [r [Hr _]].
  split.
  - unfold random_point. rewrite Hk0, norm_zeros_col.
    np_unfold. cbn [map zip_with]. rewrite Hr, map_div_zero.
    unfold fin, zeros. now rewrite !map_map.
  - intros H. apply valid_point_fins in H. destruct H as [A [HA _]].
    destruct A as [| a A]; [discriminate |].
    simpl in HA. injection HA as HA _.
    destruct c as [| x c]; [now apply Hc |].
    destruct a; discriminate.
Qed.

Lemma random_point_zero_draw_witness :
  random_point (mkPoincareBall 2 1 (Manifold_init "Poincare ball B(2)" 2))
    [fin (zeros [0; 0])] [Fin (1 / 4)]
  = Some [map (fun _ => NonFinite) [0; 0]].
Proof.
  apply (random_point_zero_draw 2 1
           (mkPoincareBall 2 1 (Manifold_init "Poincare ball B(2)" 2))
           [0; 0] (1 / 4)).
  - reflexivity.
  - lra.
  - discriminate.
Defined.

(** ** Instances *)

Lemma no_paren_uint (d : Decimal.uint) :
  no_paren (NilEmpty.string_of_uint d).
Proof. induction d; simpl; try exact I; split; try discriminate; auto. Qed.

Lemma no_paren_str (k : Z) : (1 <= k)%Z -> no_paren (str k).
Proof.
  intros Hk. destruct k as [| p | p]; try lia.
  unfold str. simpl. unfold NilZero.string_of_uint.
  destruct (Pos.to_uint p); try apply (no_paren_uint (_ _)).
  simpl. split; [discriminate | exact I].
Qed.

Lemma append_paren_inj (s s' r r' : string) :
  no_paren s -> no_paren s' ->
  (s ++ String ")" r = s' ++ String ")" r')%string ->
  s = s' /\ r = r'.
Proof.
  revert s'. induction s as [| c s IH]; intros [| c' s'] Hs Hs' E;
    simpl in *.
  - injection E as E. now split.
  - injection E as E1 E2. destruct Hs' as [Hc _]. now elim Hc.
  - injection E as E1 E2. destruct Hs as [Hc _]. now elim Hc.
  - injection E as E1 E2. destruct Hs as [_ Hs]. destruct Hs' as [_ Hs'].
    destruct (IH s' Hs Hs' E2) as [-> ->]. now subst.
Qed.

(** X20. An instance returned by the constructor has dimension k * n >= 1
    and a positive [typical_dist] of k * n / 8, and its name tells k and n:
    two instances of equal name were built from the same k and n. *)
Theorem instance_identity (k n k' n' : Z) (m m' : t) :
  __init__ k n = inr m -> __init__ k' n' = inr m' ->
  dim (base m) = (k * n)%Z /\ (1 <= dim (base m))%Z
  /\ typical_dist m = IZR (k * n) / 8 /\ 0 < typical_dist m
  /\ (name (base m) = name (base m') -> k = k' /\ n = n').
Proof.
  intros Hm Hm'.
  destruct (init_inr k n m Hm) as [Hk [Hn [_ [_ [Hd Hname]]]]].
  destruct (init_inr k' n' m' Hm') as [Hk' [Hn' [_ [_ [_ Hname']]]]].
  assert (Hdim : (1 <= k * n)%Z) by nia.
  split; [exact Hd |]. split; [lia |].
  unfold typical_dist. rewrite Hd. split; [reflexivity |].
  split.
  - apply Rdiv_lt_0_compat; [| lra]. apply IZR_lt. lia.
  - rewrite Hname, Hname'. intros E.
    pose proof (no_paren_str k Hk) as Hp.
    pose proof (no_paren_str k' Hk') as Hp'.
    destruct (Z.eqb_spec n 1) as [-> | Hne];
      destruct (Z.eqb_spec n' 1) as [-> | Hne'];
      simpl in E; injection E as E.
    + apply append_paren_inj in E; try assumption.
      destruct E as [E _]. apply str_inj in E. now split.
    + apply append_paren_inj in E; try assumption.
      destruct E as [_ E]. discriminate E.
    + apply append_paren_inj in E; try assumption.
      destruct E as [_ E]. discriminate E.
    + apply append_paren_inj in E; try assumption.
      destruct E as [E1 E2]. injection E2 as E2.
      apply str_inj in E1. apply str_inj in E2. now split.
Qed.

Lemma instance_identity_witness :
  exists m, __init__ 2 3 = inr m /\ dim (base m) = 6%Z.
Proof.
  eexists. split; [reflexivity |].
  apply (instance_identity 2 3 2 3 _ _ eq_refl eq_refl).
Defined.
